(** * poker-basic: the betting round, the decision policies and the showdown

    A shallow embedding of [card.py], [deck.py], [player.py] and
    [poker_game.py].

    - Python integers are [Z]; Python floats are the binary64 primitive
      floats of Rocq, so every float operation of the source is the same
      IEEE-754 operation here.
    - Player objects are shared by reference between [PokerGame.players],
      [last_raiser] and [players_acted]; the classes define no [__eq__], so
      [==] and set membership are object identity.  A player is therefore
      identified by its seat (its index in [players]), and the roster is a
      list updated in place at that index.
    - Exceptions are the [Exn] results of a small error monad; an
      exception of [make_decision] leaves [betting_round] and [play_hand],
      which catch nothing.
    - Console output ([print]) is not modelled. *)

From Stdlib Require Import ZArith Lia Bool Sorting.Sorted.
From Stdlib Require Import Floats.PrimFloat Floats.SpecFloat Floats.FloatOps.
From Stdlib Require Import Floats.FloatAxioms.
From stdpp Require Import base option list gmap strings.

Set Warnings "-inexact-float".
Local Open Scope Z_scope.

(** ** Python values *)

Module py.

Inductive exn :=
  ValueError | AttributeError | IndexError | OverflowError | ZeroDivisionError
| EOFError.

Inductive result (A : Type) : Type :=
| Ok (a : A)
| Exn (e : exn).
Global Arguments Ok {A} a.
Global Arguments Exn {A} e.

Definition bind {A B} (m : result A) (k : A → result B) : result B :=
  match m with
  | Ok a => k a
  | Exn e => Exn e
  end.

(** [float(n)] for an int [n]: the nearest double, ties to even;
    [OverflowError] when [n] is too large for a double. *)
Definition float_of_int (n : Z) : result float :=
  let f := SF2Prim (binary_normalize prec emax n 0 false) in
  if is_infinity f then Exn OverflowError else Ok f.

Definition int_to_spec (n : Z) : spec_float :=
  match n with
  | Z0 => S754_zero false
  | Zpos m => S754_finite false m 0
  | Zneg m => S754_finite true m 0
  end.

(** [a / b] on two ints: the correctly rounded quotient. *)
Definition truediv (a b : Z) : result float :=
  if b =? 0 then Exn ZeroDivisionError
  else
    let f := SF2Prim (SFdiv prec emax (int_to_spec a) (int_to_spec b)) in
    if is_infinity f then Exn OverflowError else Ok f.

(** [int(x)] for a float [x]: truncation toward zero. *)
Definition int_of_float (x : float) : result Z :=
  match Prim2SF x with
  | S754_zero _ => Ok 0
  | S754_finite s m e =>
      let a := Z.shiftl (Zpos m) e in
      Ok (if s then - a else a)
  | S754_infinity _ => Exn OverflowError
  | S754_nan => Exn ValueError
  end.

(** [min(x, y)] and [max(x, y)] on floats: the first argument unless the
    second is strictly smaller (larger). *)
Definition fmin (x y : float) : float := if (y <? x)%float then y else x.
Definition fmax (x y : float) : float := if (x <? y)%float then y else x.

(** [max(xs)] on a sequence of ints: [ValueError] on the empty sequence. *)
Definition max_of (xs : list Z) : result Z :=
  match xs with
  | [] => Exn ValueError
  | x :: rest => Ok (fold_left Z.max rest x)
  end.

(** [xs.sort(reverse=True)] on ints. *)
Fixpoint insert_desc (x : Z) (xs : list Z) : list Z :=
  match xs with
  | [] => [x]
  | y :: ys => if y <=? x then x :: y :: ys else y :: insert_desc x ys
  end.

Definition sort_reverse (xs : list Z) : list Z := foldr insert_desc [] xs.

End py.

(** The error monad uses stdpp's [x ← m; k] notation. *)
Global Instance result_bind : MBind py.result := λ A B k m, py.bind m k.
Global Instance result_ret : MRet py.result := λ A a, py.Ok a.

(** ** card.py *)

Module card.

Inductive Suit := Hearts | Diamonds | Clubs | Spades.

Inductive Rank := R2 | R3 | R4 | R5 | R6 | R7 | R8 | R9 | R10 | J | Q | K | A.

Global Instance Rank_eq_dec : EqDecision Rank.
Proof. solve_decision. Defined.

Global Instance Suit_eq_dec : EqDecision Suit.
Proof. solve_decision. Defined.

Definition SUITS : list Suit := [Hearts; Diamonds; Clubs; Spades].
Definition RANKS : list Rank := [R2; R3; R4; R5; R6; R7; R8; R9; R10; J; Q; K; A].

(** The constructor's membership checks cannot fail: [Rank] and [Suit] hold
    exactly the members of [RANKS] and [SUITS]. *)
Record Card := { rank : Rank; suit : Suit }.

(** [__eq__]: two cards are equal when rank and suit are. *)
Global Instance Card_eq_dec : EqDecision Card.
Proof. solve_decision. Defined.

(** [list.index]: position of the first occurrence. *)
Fixpoint index (r : Rank) (l : list Rank) : option nat :=
  match l with
  | [] => None
  | x :: rest => if decide (x = r) then Some 0%nat else S <$> index r rest
  end.

Definition get_value (self : Card) : Z :=
  Z.of_nat (default 0%nat (index (rank self) RANKS)).

(** [Card(rank, suit)] on the two strings the constructor receives:
    [ValueError] for a rank outside [RANKS], then for a suit outside
    [SUITS]. *)
Definition rank_str (r : Rank) : string :=
  match r with
  | R2 => "2" | R3 => "3" | R4 => "4" | R5 => "5" | R6 => "6" | R7 => "7"
  | R8 => "8" | R9 => "9" | R10 => "10" | J => "J" | Q => "Q" | K => "K"
  | A => "A"
  end.

Definition suit_str (s : Suit) : string :=
  match s with
  | Hearts => "Hearts" | Diamonds => "Diamonds" | Clubs => "Clubs"
  | Spades => "Spades"
  end.

Definition Card_init (rank' suit' : string) : py.result Card :=
  match list_find (λ r, rank_str r = rank') RANKS with
  | None => py.Exn py.ValueError
  | Some (_, r) =>
      match list_find (λ s, suit_str s = suit') SUITS with
      | None => py.Exn py.ValueError
      | Some (_, s) => py.Ok {| rank := r; suit := s |}
      end
  end.

(** [__str__]: "rank of suit". *)
Definition Card_str (self : Card) : string :=
  rank_str (rank self) +:+ " of " +:+ suit_str (suit self).

End card.

(** ** deck.py *)

Module deck.
Import card.

(** [Deck.cards]; the last element is the top of the deck. *)
Definition Deck : Type := list Card.

(** [list.pop()]: the list without its last element, and that element. *)
Fixpoint pop {A} (l : list A) : option (list A * A) :=
  match l with
  | [] => None
  | x :: rest =>
      match pop rest with
      | None => Some ([], x)
      | Some (rest', y) => Some (x :: rest', y)
      end
  end.

Definition reset (self : Deck) : Deck :=
  suit ← SUITS; rank ← RANKS; [ {| rank := rank; suit := suit |} ].

(** [random.shuffle] rearranges the list in place; the source of
    randomness is the function [rng]. *)
Definition shuffle (rng : list Card → list Card) (self : Deck) : Deck :=
  rng self.

Definition deal_card (self : Deck) : py.result (Card * Deck) :=
  match pop self with
  | None => py.Exn py.ValueError
  | Some (rest, c) => py.Ok (c, rest)
  end.

Definition cards_remaining (self : Deck) : nat := length self.

Definition is_empty (self : Deck) : bool := (length self =? 0)%nat.

End deck.

(** ** player.py *)

Module player.
Import card.

Record Player := {
  name : string;
  chips : Z;
  hand : list Card;
  current_bet : Z;
  has_folded : bool;
  is_all_in : bool
}.

Definition init (name : string) (chips : Z) : Player :=
  {| name := name; chips := chips; hand := []; current_bet := 0;
     has_folded := false; is_all_in := false |}.

Definition reset_for_new_hand (self : Player) : Player :=
  {| name := name self; chips := chips self; hand := []; current_bet := 0;
     has_folded := false; is_all_in := false |}.

Definition add_card (self : Player) (c : Card) : Player :=
  {| name := name self; chips := chips self; hand := hand self ++ [c];
     current_bet := current_bet self; has_folded := has_folded self;
     is_all_in := is_all_in self |}.

(** The mutated player and the returned [bet_amount]. *)
Definition place_bet (self : Player) (amount : Z) : Player * Z :=
  if chips self <=? amount then
    let bet_amount := chips self in
    ({| name := name self; chips := 0; hand := hand self;
        current_bet := current_bet self + bet_amount;
        has_folded := has_folded self; is_all_in := true |}, bet_amount)
  else
    let bet_amount := amount in
    ({| name := name self; chips := chips self - amount; hand := hand self;
        current_bet := current_bet self + bet_amount;
        has_folded := has_folded self; is_all_in := is_all_in self |}, bet_amount).

Definition fold (self : Player) : Player :=
  {| name := name self; chips := chips self; hand := hand self;
     current_bet := current_bet self; has_folded := true;
     is_all_in := is_all_in self |}.

Definition can_bet (self : Player) : bool :=
  (0 <? chips self) && negb (has_folded self) && negb (is_all_in self).

(** The pair [(decision, amount)] every [make_decision] returns. *)
Inductive Action := Fold | Call | Raise.
Definition Decision : Type := Action * Z.

(** [HumanPlayer.make_decision], one pass of its prompt loop: [action] is
    the typed action after [lower().strip()], [typed_raise] what
    [int(input(...))] gives when the action is a raise ([None] for the
    [ValueError] the loop catches). The result is the decision returned, or
    [None] when the loop prompts again. *)
Definition HumanPlayer_prompt (self : Player) (current_bet' minimum_bet : Z)
    (action : string) (typed_raise : option Z) : option Decision :=
  let call_amount :=
    if current_bet self <? current_bet'
    then current_bet' - current_bet self else 0 in
  if String.eqb action "f" then Some (Fold, 0)
  else if String.eqb action "c" then Some (Call, call_amount)
  else if String.eqb action "r" then
    if chips self <=? call_amount then None
    else
      let max_raise := chips self - call_amount in
      match typed_raise with
      | None => None
      | Some raise_amount =>
          if raise_amount <? minimum_bet then None
          else if max_raise <? raise_amount then None
          else Some (Raise, call_amount + raise_amount)
      end
  else None.

(** [AIPlayer]: a [Player] with an aggression level. *)
Record AIPlayer := { base : Player; aggression : float }.

Definition AIPlayer_init (name : string) (chips : Z) (aggression : float) : AIPlayer :=
  {| base := init name chips;
     aggression := py.fmax 0.0 (py.fmin 1.0 aggression) |}.

Definition _evaluate_hand_strength (self : AIPlayer) : py.result float :=
  if (length (hand (base self)) <? 2)%nat then py.Ok 0.5%float
  else
    let values := py.sort_reverse (map get_value (hand (base self))) in
    match values with
    | v0 :: v1 :: _ =>
        if v0 =? v1 then
          q ← py.truediv v0 (Z.of_nat (length RANKS));
          py.Ok (0.7 + q * 0.3)%float
        else
          high_card_strength ← py.truediv v0 (Z.of_nat (length RANKS));
          py.Ok (0.3 + high_card_strength * 0.4)%float
    | [v0] =>
        high_card_strength ← py.truediv v0 (Z.of_nat (length RANKS));
        py.Ok (0.3 + high_card_strength * 0.4)%float
    | [] => py.Exn py.IndexError
    end.

Definition make_decision (self : AIPlayer) (current_bet' minimum_bet : Z)
  : py.result Decision :=
  let call_amount :=
    if current_bet (base self) <? current_bet'
    then current_bet' - current_bet (base self) else 0 in
  hand_strength ← _evaluate_hand_strength self;
  bet_ratio ← py.truediv call_amount (Z.max (chips (base self)) 1);
  let fold_threshold := (0.2 + bet_ratio * 0.3)%float in
  let raise_threshold := (0.6 + (0.4 - aggression self * 0.4))%float in
  if (hand_strength <? fold_threshold)%float && (0 <? call_amount) then
    py.Ok (Fold, 0)
  else if (raise_threshold <? hand_strength)%float
          && (call_amount + minimum_bet <? chips (base self)) then
    let max_raise := chips (base self) - call_amount in
    let raise_multiplier := (aggression self * hand_strength)%float in
    m ← py.float_of_int minimum_bet;
    n ← py.int_of_float (m * (1 + raise_multiplier * 3))%float;
    let raise_amount := Z.min n max_raise in
    let raise_amount := Z.max raise_amount minimum_bet in
    py.Ok (Raise, call_amount + raise_amount)
  else
    py.Ok (Call, call_amount).

(** [HumanPlayer.make_decision] with its prompt loop. The console is the
    list of what the user does at each [input]: a typed line, or the
    interrupt key. [normalise] stands for [.lower().strip()] and
    [parse_int] for [int(...)], [None] being its [ValueError]. The loop
    ends with a decision and the unread rest of the console, or with the
    [EOFError] of [input] when the console is exhausted. *)
Inductive ConsoleEvent := Typed (line : string) | Interrupt.

Inductive Prompted :=
| Decided (d : Decision) (rest : list ConsoleEvent)
| EndOfInput.

Fixpoint HumanPlayer_make_decision (normalise : string → string)
    (parse_int : string → option Z) (self : Player)
    (current_bet' minimum_bet : Z) (console : list ConsoleEvent) : Prompted :=
  let call_amount :=
    if current_bet self <? current_bet'
    then current_bet' - current_bet self else 0 in
  match console with
  | [] => EndOfInput
  | Interrupt :: rest =>
      HumanPlayer_make_decision normalise parse_int self current_bet'
        minimum_bet rest
  | Typed line :: rest =>
      let action := normalise line in
      if String.eqb action "r" && negb (chips self <=? call_amount) then
        match rest with
        | [] => EndOfInput
        | answer :: rest' =>
            let typed_raise :=
              match answer with
              | Typed amount => parse_int amount
              | Interrupt => None
              end in
            match HumanPlayer_prompt self current_bet' minimum_bet action
                    typed_raise with
            | Some d => Decided d rest'
            | None =>
                HumanPlayer_make_decision normalise parse_int self
                  current_bet' minimum_bet rest'
            end
        end
      else
        match HumanPlayer_prompt self current_bet' minimum_bet action None with
        | Some d => Decided d rest
        | None =>
            HumanPlayer_make_decision normalise parse_int self current_bet'
              minimum_bet rest
        end
  end.

End player.

(** ** poker_game.py *)

Module poker_game.
Import player.

(** The deck only feeds [deal_cards]; it is left out of the table state. *)
Record PokerGame := {
  players : list Player;
  pot : Z;
  current_bet : Z;
  minimum_bet : Z;
  dealer_position : nat
}.

(** [setup_hand] without the deck: the pot and the bet to match are
    cleared, every player is reset, and the players without chips leave
    the roster. The flag is the returned boolean. *)
Definition setup_hand (g : PokerGame) : PokerGame * bool :=
  let ps := map reset_for_new_hand (players g) in
  let ps := filter (λ p, 0 < chips p) ps in
  ({| players := ps; pot := 0; current_bet := 0;
      minimum_bet := minimum_bet g; dealer_position := dealer_position g |},
   negb (length ps <? 2)%nat).

(** A decision policy stands for the dynamic dispatch of
    [player.make_decision(self.current_bet, self.minimum_bet)]: it sees how
    many decisions were taken before (the position in the stream of console
    inputs or scripted answers), the seat, the player and both arguments.
    The call returns a decision or raises: [EOFError] when [input] finds
    the console closed ([HumanPlayer] catches [ValueError] and
    [KeyboardInterrupt] only), [OverflowError] in the float arithmetic of
    [AIPlayer]. *)
Definition Policy : Type := nat → nat → Player → Z → Z → py.result Decision.

(** The table together with the local variables of [betting_round].
    [decisions] is not a variable of the source: it counts the calls of
    [make_decision], so that a policy can stand for a stream of inputs. *)
Record RoundState := {
  game : PokerGame;
  last_raiser : option nat;
  players_acted : gset nat;
  all_called : bool;
  round_had_action : bool;
  decisions : nat
}.

Definition set_player (g : PokerGame) (i : nat) (p : Player) : PokerGame :=
  {| players := <[i := p]> (players g); pot := pot g;
     current_bet := current_bet g; minimum_bet := minimum_bet g;
     dealer_position := dealer_position g |}.

Definition add_pot (g : PokerGame) (amount : Z) : PokerGame :=
  {| players := players g; pot := pot g + amount;
     current_bet := current_bet g; minimum_bet := minimum_bet g;
     dealer_position := dealer_position g |}.

Definition set_current_bet (g : PokerGame) (b : Z) : PokerGame :=
  {| players := players g; pot := pot g;
     current_bet := b; minimum_bet := minimum_bet g;
     dealer_position := dealer_position g |}.

Definition in_round (p : Player) : bool :=
  negb (has_folded p) && negb (is_all_in p).

(** [p.current_bet == self.current_bet or p.has_folded or p.is_all_in] *)
Definition settled (table_bet : Z) (p : Player) : bool :=
  (player.current_bet p =? table_bet) || has_folded p || is_all_in p.

(** [[p for p in self.players if f(p)]], each player with its seat. *)
Fixpoint seats_where (f : Player → bool) (k : nat) (ps : list Player)
  : list (nat * Player) :=
  match ps with
  | [] => []
  | p :: rest =>
      if f p then (k, p) :: seats_where f (S k) rest
      else seats_where f (S k) rest
  end.

Definition not_folded (p : Player) : bool := negb (has_folded p).

Definition count_not_folded (ps : list Player) : nat :=
  length (seats_where not_folded 0 ps).

Definition count_in_round (ps : list Player) : nat :=
  length (seats_where in_round 0 ps).

Definition needs_to_act (r : RoundState) (i : nat) (p : Player) : bool :=
  (player.current_bet p <? current_bet (game r))
  || bool_decide (last_raiser r = Some i)
  || ((current_bet (game r) =? 0) && negb (bool_decide (i ∈ players_acted r))).

(** [all(... for p in self.players if p != player)] *)
Definition others_settled (r : RoundState) (i : nat) : bool :=
  forallb id
    (imap (λ j p, bool_decide (j = i) || settled (current_bet (game r)) p)
       (players (game r))).

(** The processing of the decision of seat [i] (lines 118-141). *)
Definition process_decision (d : Decision) (i : nat) (p : Player)
    (r : RoundState) : RoundState :=
  let g := game r in
  let '(decision, amount) := d in
  let acted := {[ i ]} ∪ players_acted r in
  match decision with
  | Fold =>
      {| game := set_player g i (fold p); last_raiser := last_raiser r;
         players_acted := acted; all_called := all_called r;
         round_had_action := true; decisions := S (decisions r) |}
  | Call =>
      if 0 <? amount then
        let '(p', actual_bet) := place_bet p amount in
        {| game := add_pot (set_player g i p') actual_bet;
           last_raiser := last_raiser r;
           players_acted := acted; all_called := all_called r;
           round_had_action := true; decisions := S (decisions r) |}
      else
        {| game := g; last_raiser := last_raiser r;
           players_acted := acted; all_called := all_called r;
           round_had_action := true; decisions := S (decisions r) |}
  | Raise =>
      let '(p', actual_bet) := place_bet p amount in
      {| game := set_current_bet (add_pot (set_player g i p') actual_bet)
                   (player.current_bet p');
         last_raiser := Some i;
         players_acted := {[ i ]}; all_called := false;
         round_had_action := true; decisions := S (decisions r) |}
  end.

(** The call of [make_decision] for seat [i] (line 117) and the processing
    of what it returns. Nothing in [betting_round] catches an exception of
    the call: it leaves the table and the local variables as they were. *)
Definition take_action (pol : Policy) (i : nat) (p : Player) (r : RoundState)
  : py.result RoundState :=
  match pol (decisions r) i p (current_bet (game r)) (minimum_bet (game r)) with
  | py.Exn e => py.Exn e
  | py.Ok d => py.Ok (process_decision d i p r)
  end.

(** How an iteration of the [for] loop ends: with the [return] of line
    146, by going on to the next seat, or with an exception. *)
Inductive Flow := Returns | Continues | Raises (e : py.exn).

(** One iteration of [for player in self.players], with the way it
    ended. The loop only visits seats of the roster, so the lookup never
    fails. *)
Definition loop_body (pol : Policy) (i : nat) (r : RoundState)
  : RoundState * Flow :=
  match players (game r) !! i with
  | None => (r, Continues)
  | Some p =>
      if has_folded p || is_all_in p then (r, Continues)
      else
        let needs := needs_to_act r i p in
        if needs && bool_decide (last_raiser r = Some i) && others_settled r i
        then (r, Continues)
        else
          match (if needs then take_action pol i p r else py.Ok r) with
          | py.Exn e => (r, Raises e)
          | py.Ok r' =>
              (r', if (count_not_folded (players (game r')) <=? 1)%nat
                   then Returns else Continues)
          end
  end.

Fixpoint sweep (pol : Policy) (seats : list nat) (r : RoundState)
  : RoundState * Flow :=
  match seats with
  | [] => (r, Continues)
  | i :: rest =>
      let '(r', flow) := loop_body pol i r in
      match flow with
      | Continues => sweep pol rest r'
      | Returns | Raises _ => (r', flow)
      end
  end.

(** Lines 91-92: the flags reset at the top of every [while] iteration. *)
Definition begin_sweep (r : RoundState) : RoundState :=
  {| game := game r; last_raiser := last_raiser r;
     players_acted := players_acted r; all_called := true;
     round_had_action := false; decisions := decisions r |}.

(** Lines 149-159: the value given to [betting_complete]. *)
Definition betting_complete (r : RoundState) : bool :=
  if (count_in_round (players (game r)) <=? 1)%nat then true
  else if negb (round_had_action r) then true
  else forallb (settled (current_bet (game r))) (players (game r)).

(** How a call of [betting_round] ended: it returned, or a call of
    [make_decision] raised, or the [while] loop was still running when the
    fuel ran out. *)
Inductive Exit := NoBetting | FoldOut | Complete.

Inductive Run :=
| Finished (how : Exit) (r : RoundState)
| Running (r : RoundState)
| Raised (e : py.exn) (r : RoundState).

Definition state_of (x : Run) : RoundState :=
  match x with Finished _ r => r | Running r => r | Raised _ r => r end.

Fixpoint while_loop (pol : Policy) (fuel : nat) (r : RoundState) : Run :=
  match fuel with
  | O => Running r
  | S fuel' =>
      let '(r', flow) :=
        sweep pol (seq 0 (length (players (game r)))) (begin_sweep r) in
      match flow with
      | Returns => Finished FoldOut r'
      | Raises e => Raised e r'
      | Continues =>
          if betting_complete r' then Finished Complete r'
          else while_loop pol fuel' r'
      end
  end.

Definition enter_round (g : PokerGame) : RoundState :=
  {| game := g; last_raiser := None; players_acted := ∅;
     all_called := true; round_had_action := false; decisions := 0 |}.

Definition betting_round (pol : Policy) (fuel : nat) (g : PokerGame) : Run :=
  if (count_in_round (players g) <=? 1)%nat then Finished NoBetting (enter_round g)
  else while_loop pol fuel (enter_round g).

(** [winner.chips += self.pot] for the player at seat [i]. *)
Definition award (g : PokerGame) (i : nat) : PokerGame :=
  {| players :=
       alter (λ p, {| name := name p; chips := chips p + pot g;
                      hand := hand p; player.current_bet := player.current_bet p;
                      has_folded := has_folded p; is_all_in := is_all_in p |})
         i (players g);
     pot := pot g; current_bet := current_bet g;
     minimum_bet := minimum_bet g; dealer_position := dealer_position g |}.

(** [active_players] of [determine_winner]: the players that have not
    folded, in seating order. *)
Definition active_players (g : PokerGame) : list (nat * Player) :=
  seats_where not_folded 0 (players g).

(** The showdown loop (lines 176-181). *)
Fixpoint showdown (active : list (nat * Player))
    (best_player : option nat) (best_value : Z) : py.result (option nat) :=
  match active with
  | [] => py.Ok best_player
  | (i, p) :: rest =>
      max_card_value ← py.max_of (map card.get_value (hand p));
      if best_value <? max_card_value
      then showdown rest (Some i) max_card_value
      else showdown rest best_player best_value
  end.

Definition determine_winner (g : PokerGame) : py.result PokerGame :=
  match active_players g with
  | [(i, _)] => py.Ok (award g i)
  | active =>
      best_player ← showdown active None (-1);
      match best_player with
      | Some i => py.Ok (award g i)
      | None => py.Exn py.AttributeError
      end
  end.

(** [play_hand] once the betting round is over (lines 206-209): the pot
    is awarded when somebody has not folded. *)
Definition play_hand_showdown (g : PokerGame) : py.result PokerGame :=
  if (0 <? count_not_folded (players g))%nat then determine_winner g
  else py.Ok g.

(** [deal_cards]: the inner loop gives one card to every player while the
    deck has cards; the outer loop repeats it [cards_per_player] times. *)
Fixpoint deal_pass (d : deck.Deck) (ps : list Player)
  : py.result (deck.Deck * list Player) :=
  match ps with
  | [] => py.Ok (d, [])
  | p :: rest =>
      if (0 <? deck.cards_remaining d)%nat then
        '(c, d') ← deck.deal_card d;
        '(d'', rest') ← deal_pass d' rest;
        py.Ok (d'', add_card p c :: rest')
      else
        '(d'', rest') ← deal_pass d rest;
        py.Ok (d'', p :: rest')
  end.

Fixpoint deal_cards (cards_per_player : nat) (d : deck.Deck) (ps : list Player)
  : py.result (deck.Deck * list Player) :=
  match cards_per_player with
  | O => py.Ok (d, ps)
  | S n =>
      '(d', ps') ← deal_pass d ps;
      deal_cards n d' ps'
  end.

Definition set_players (g : PokerGame) (ps : list Player) : PokerGame :=
  {| players := ps; pot := pot g; current_bet := current_bet g;
     minimum_bet := minimum_bet g; dealer_position := dealer_position g |}.

Definition count_with_chips (ps : list Player) : nat :=
  length (filter (λ p, 0 < chips p) ps).

(** [play_hand]. The result is [None] when the betting round was still
    running when the fuel ran out; otherwise the table, the deck and the
    returned boolean, or the exception that ended the hand. *)
Definition play_hand (pol : Policy) (fuel : nat)
    (rng : list card.Card → list card.Card) (g : PokerGame) (d : deck.Deck)
  : option (py.result (PokerGame * deck.Deck * bool)) :=
  let d := deck.shuffle rng (deck.reset d) in
  let '(g, proceed) := setup_hand g in
  if negb proceed then Some (py.Ok (g, d, false))
  else
    match deal_cards 2 d (players g) with
    | py.Exn e => Some (py.Exn e)
    | py.Ok (d, ps) =>
        match betting_round pol fuel (set_players g ps) with
        | Running _ => None
        | Raised e _ => Some (py.Exn e)
        | Finished _ r =>
            match play_hand_showdown (game r) with
            | py.Exn e => Some (py.Exn e)
            | py.Ok g =>
                if (length (players g) =? 0)%nat
                then Some (py.Exn py.ZeroDivisionError)
                else
                  let g :=
                    {| players := players g; pot := pot g;
                       current_bet := current_bet g;
                       minimum_bet := minimum_bet g;
                       dealer_position :=
                         (dealer_position g + 1) mod length (players g) |} in
                  Some (py.Ok (g, d, (1 <? count_with_chips (players g))%nat))
            end
        end
    end.

End poker_game.

(** * Specification vocabulary *)

Import player poker_game.

(** Sums over the roster. *)
Definition sumZ (f : Player → Z) (ps : list Player) : Z :=
  foldr (λ p acc, f p + acc) 0 ps.

Definition total_chips (g : PokerGame) : Z := sumZ chips (players g).
Definition total_bets (g : PokerGame) : Z := sumZ player.current_bet (players g).
Definition stake (p : Player) : Z := chips p + player.current_bet p.
Definition total_stake (g : PokerGame) : Z := sumZ stake (players g).

(** What one processed decision may do to the ledger: the staked total is
    kept, the pot grows by what the players added to their bets, and no
    stack becomes negative. *)
Record ledger_step (g g' : PokerGame) : Prop := {
  ledger_stake : total_stake g' = total_stake g;
  ledger_pot : pot g' - pot g = total_bets g' - total_bets g;
  ledger_nonneg :
    Forall (λ p, 0 ≤ chips p) (players g) → Forall (λ p, 0 ≤ chips p) (players g');
  ledger_length : length (players g') = length (players g)
}.

(** [PokerGame.__init__] followed by [setup_hand]: an empty pot, no bet
    to match, a minimum bet of 10. *)
Definition new_table (ps : list Player) : PokerGame :=
  {| players := ps; pot := 0; current_bet := 0; minimum_bet := 10;
     dealer_position := 0 |}.

(** [call_amount] as both policies compute it. *)
Definition call_amount (p : Player) (table_bet : Z) : Z :=
  if player.current_bet p <? table_bet
  then table_bet - player.current_bet p else 0.

(** The amounts [HumanPlayer.make_decision] and [AIPlayer.make_decision]
    can return: a call asks for [call_amount]; a raise asks for
    [call_amount + raise_amount] with
    [minimum_bet <= raise_amount <= chips - call_amount]. The amount that
    comes with a fold is ignored by the engine. *)
Definition policy_amount (table_bet minimum_bet : Z) (p : Player)
    (d : Decision) : Prop :=
  match d with
  | (Fold, _) => True
  | (Call, amount) => amount = call_amount p table_bet
  | (Raise, amount) =>
      ∃ raise_amount,
        amount = call_amount p table_bet + raise_amount
        ∧ minimum_bet ≤ raise_amount ≤ chips p - call_amount p table_bet
  end.

Definition policy_conforms (pol : Policy) : Prop :=
  ∀ n i p table_bet minimum_bet d,
    pol n i p table_bet minimum_bet = py.Ok d →
    policy_amount table_bet minimum_bet p d.

(** A policy none of whose calls raises. *)
Definition never_raises (pol : Policy) : Prop :=
  ∀ n i p table_bet minimum_bet e, pol n i p table_bet minimum_bet ≠ py.Exn e.

(** [e] is the exception of a call of the policy. *)
Definition raised_by (pol : Policy) (e : py.exn) : Prop :=
  ∃ n i p table_bet minimum_bet, pol n i p table_bet minimum_bet = py.Exn e.

(** The dispatch at a table of automated players, seat [i] playing with
    aggression [aggr i]. *)
Definition ai_policy (aggr : nat → float) : Policy :=
  λ _ i p table_bet minimum_bet,
    make_decision {| base := p; aggression := aggr i |} table_bet minimum_bet.

(** The dispatch at a table of human players, [console n] being what is
    left of the console when the decision number [n] is asked for. *)
Definition human_policy (normalise : string → string)
    (parse_int : string → option Z) (console : nat → list ConsoleEvent)
  : Policy :=
  λ n _ p table_bet minimum_bet,
    match HumanPlayer_make_decision normalise parse_int p table_bet
            minimum_bet (console n) with
    | Decided d _ => py.Ok d
    | EndOfInput => py.Exn py.EOFError
    end.

(** The state the engine keeps between two iterations: stacks are
    non-negative, nobody still in the round has bet more than the table
    bet, the last raiser's bet is the table bet, and the minimum bet is not
    negative. [setup_hand] establishes it and every iteration keeps it. *)
Record round_ok (r : RoundState) : Prop := {
  ok_chips : ∀ j p, players (game r) !! j = Some p → 0 ≤ chips p;
  ok_bets : ∀ j p, players (game r) !! j = Some p → in_round p = true →
            player.current_bet p ≤ current_bet (game r);
  ok_raiser : ∀ i, last_raiser r = Some i →
              ∃ p, players (game r) !! i = Some p
                   ∧ player.current_bet p = current_bet (game r);
  ok_minimum : 0 ≤ minimum_bet (game r)
}.

(** Progress of one sweep that started with table bet [T0] and chip total
    [S0], after the seats in [seen] were visited. *)
Record sweep_inv (T0 S0 : Z) (seen : list nat) (r : RoundState) : Prop := {
  inv_ok : round_ok r;
  inv_bet : T0 ≤ current_bet (game r);
  inv_chips : total_chips (game r) + (current_bet (game r) - T0) ≤ S0;
  inv_seen : current_bet (game r) = T0 →
             ∀ j p, j ∈ seen → players (game r) !! j = Some p →
                    in_round p = true →
                    player.current_bet p = current_bet (game r)
}.

(** The highest card value of a hand (0 for the empty hand). *)
Definition top_card (p : Player) : Z :=
  foldr Z.max 0 (map card.get_value (hand p)).

(** The player after [winner.chips += pot]. *)
Definition paid (p : Player) (amount : Z) : Player :=
  {| name := name p; chips := chips p + amount; hand := hand p;
     player.current_bet := player.current_bet p;
     has_folded := has_folded p; is_all_in := is_all_in p |}.

(** The completion test as the specification words it: (i) no player
    acted during the sweep, or (ii) every player is folded, all-in or has
    matched the table bet. *)
Definition spec_round_complete (r : RoundState) : bool :=
  negb (round_had_action r)
  || forallb (settled (current_bet (game r))) (players (game r)).


(** Scripted policies and tables used as concrete runs. *)

(** The first decision raises to 50, the second goes all-in with 100,
    every later one checks or calls. *)
Definition raise_then_shove : Policy :=
  λ n _ p table_bet _,
    py.Ok match n with
          | 0%nat => (Raise, 50)
          | 1%nat => (Raise, 100)
          | _ => (Call, call_amount p table_bet)
          end.

Definition big_and_short_stack : PokerGame :=
  new_table [init "Alice" 1000; init "Bob" 100].

(** Vocabulary of the hand-strength heuristic: the card values of a
    hand, the highest of them, and whether the two highest are equal (the
    highest value occurs twice). *)
Definition card_values (self : AIPlayer) : list Z :=
  map card.get_value (hand (base self)).

Definition top_value (vs : list Z) : Z := foldr Z.max 0 vs.

Definition top_two_equal (vs : list Z) : bool :=
  (2 <=? length (filter (λ v, v = top_value vs) vs))%nat.

Definition descending (xs : list Z) : Prop :=
  StronglySorted (λ a b, b ≤ a) xs.

(** The float nearest to an int, and the IEEE quotient of two of them. *)
Definition to_float (n : Z) : float :=
  SF2Prim (binary_normalize prec emax n 0 false).

Definition float_quotient (a b : Z) : float := (to_float a / to_float b)%float.

(** The value [_evaluate_hand_strength] computes, in closed form. *)
Definition hand_strength (self : AIPlayer) : float :=
  (if (length (hand (base self)) <? 2)%nat then 0.5
   else if top_two_equal (card_values self)
   then 0.7 + float_quotient (top_value (card_values self)) 13 * 0.3
   else 0.3 + float_quotient (top_value (card_values self)) 13 * 0.4)%float.

(** [round(x)] as the specification words the raise: the nearest integer,
    ties to the even one. *)
Definition spec_round (x : float) : py.result Z :=
  match Prim2SF x with
  | S754_zero _ => py.Ok 0
  | S754_finite s m e =>
      let q := Z.shiftl (Zpos m) e in
      let twice_rest := 2 * (Zpos m - Z.shiftl q (- e)) in
      let unit := Z.shiftl 1 (- e) in
      let a :=
        if e <? 0 then
          if (unit <? twice_rest) || ((unit =? twice_rest) && Z.odd q)
          then q + 1 else q
        else q in
      py.Ok (if s then - a else a)
  | S754_infinity _ => py.Exn py.OverflowError
  | S754_nan => py.Exn py.ValueError
  end.

(** The raise as the specification words it:
    [clamp(round(minimumBet * (1 + aggression * handStrength * 3)),
    minimumBet, chips - callAmount)] on top of the call amount. *)
Definition spec_raise (self : AIPlayer) (table_bet minimum_bet : Z)
  : py.result Decision :=
  hand_strength ← _evaluate_hand_strength self;
  m ← py.float_of_int minimum_bet;
  n ← spec_round (m * (1 + aggression self * hand_strength * 3))%float;
  let max_raise := chips (base self) - call_amount (base self) table_bet in
  py.Ok (Raise,
         call_amount (base self) table_bet
         + Z.max minimum_bet (Z.min n max_raise)).

(** Sample AI players. *)
Definition with_hand (self : AIPlayer) (cards : list card.Card) : AIPlayer :=
  foldl (λ a c, {| base := add_card (base a) c; aggression := aggression a |})
    self cards.

Definition pair_of_aces : list card.Card :=
  [ {| card.rank := card.A; card.suit := card.Hearts |};
    {| card.rank := card.A; card.suit := card.Spades |} ].

Definition ace_king : list card.Card :=
  [ {| card.rank := card.A; card.suit := card.Hearts |};
    {| card.rank := card.K; card.suit := card.Spades |} ].

(** Raises by the minimum until the stack is exhausted, then calls. *)
Definition minimum_raiser : Policy :=
  λ _ _ p table_bet minimum_bet,
    let ca := call_amount p table_bet in
    py.Ok (if ca + minimum_bet <? chips p then (Raise, ca + minimum_bet)
           else (Call, ca)).

(** The first decision raises to 50; every later one calls. *)
Definition raise_then_call : Policy :=
  λ n _ p table_bet _,
    py.Ok match n with
          | 0%nat => (Raise, 50)
          | _ => (Call, call_amount p table_bet)
          end.


Definition three_players : PokerGame :=
  new_table [init "Alice" 1000; init "Bob" 1000; init "Charlie" 1000].

Definition small_stacks : PokerGame :=
  new_table [init "Alice" 60; init "Bob" 40; init "Charlie" 25].

Definition with_cards (p : Player) (cards : list card.Card) : Player :=
  foldl add_card p cards.

Definition with_pot (g : PokerGame) (amount : Z) : PokerGame :=
  {| players := players g; pot := amount; current_bet := current_bet g;
     minimum_bet := minimum_bet g; dealer_position := dealer_position g |}.

(** Two aces of different suits at the showdown. *)
Definition two_aces_showdown : PokerGame :=
  with_pot
    (new_table
       [ with_cards (init "Alice" 900)
           [ {| card.rank := card.R7; card.suit := card.Clubs |};
             {| card.rank := card.A; card.suit := card.Hearts |} ];
         fold (with_cards (init "Bob" 900)
           [ {| card.rank := card.K; card.suit := card.Clubs |};
             {| card.rank := card.K; card.suit := card.Hearts |} ]);
         with_cards (init "Charlie" 900)
           [ {| card.rank := card.A; card.suit := card.Spades |};
             {| card.rank := card.Q; card.suit := card.Diamonds |} ] ])
    300.

(** One player left, holding no cards. *)
Definition last_player_without_cards : PokerGame :=
  with_pot (new_table [fold (init "Alice" 900); init "Bob" 900]) 100.

Definition alice_with_aces : AIPlayer :=
  with_hand (AIPlayer_init "Alice" 1000 0.5) pair_of_aces.

Definition short_stack_with_aces : AIPlayer :=
  with_hand (AIPlayer_init "Bob" 50 0.5) pair_of_aces.

(** All cards held by the players of a roster. *)
Definition cards_in_hands (ps : list Player) : list card.Card :=
  ps ≫= hand.


(** What a betting round may do to one player: the name and the hand
    stay, a set flag stays set, and a player that was folded or all-in is
    not touched at all. *)
Record player_kept (p p' : Player) : Prop := {
  kept_name : name p' = name p;
  kept_hand : hand p' = hand p;
  kept_folded : has_folded p = true → has_folded p' = true;
  kept_all_in : is_all_in p = true → is_all_in p' = true;
  kept_out : in_round p = false → p' = p
}.

(** ... and, when the amounts are those of the policies: chips only
    leave the stack and only go to the bet. *)
Record player_paid (p p' : Player) : Prop := {
  paid_chips : 0 ≤ chips p' ≤ chips p;
  paid_bet : player.current_bet p ≤ player.current_bet p';
  paid_stake : chips p' + player.current_bet p' = chips p + player.current_bet p
}.

(** Opens with the minimum raise when nobody has bet, calls otherwise. *)
Definition opening_raiser : Policy :=
  λ _ _ p table_bet minimum_bet,
    let ca := call_amount p table_bet in
    py.Ok (if (table_bet =? 0) && (ca + minimum_bet <? chips p)
           then (Raise, ca + minimum_bet) else (Call, ca)).

Record roster_kept (g g' : PokerGame) : Prop := {
  kept_players : ∀ j p, players g !! j = Some p →
                 ∃ p', players g' !! j = Some p' ∧ player_kept p p';
  kept_length : length (players g') = length (players g);
  kept_minimum : minimum_bet g' = minimum_bet g;
  kept_dealer : dealer_position g' = dealer_position g
}.

Record table_paid (g g' : PokerGame) : Prop := {
  paid_players : ∀ j p, players g !! j = Some p →
                 ∃ p', players g' !! j = Some p' ∧ player_paid p p';
  paid_pot : pot g ≤ pot g';
  paid_table_bet : current_bet g ≤ current_bet g'
}.


(** The first decision raises to 50; then the console is closed. *)
Definition console_closes : Policy :=
  λ n _ _ _ _,
    match n with
    | 0%nat => py.Ok (Raise, 50)
    | _ => py.Exn py.EOFError
    end.


(** * Properties *)

(** ** Player.place_bet *)

(** C1: with non-negative chips and a non-negative amount, [place_bet]
    goes all-in when [amount >= chips] (flag set, chips 0, the prior chips
    returned) and otherwise deducts [amount] and returns it unchanged; in
    both cases the returned value is added to [current_bet]. Nothing else
    of the player changes. *)
Theorem place_bet_spec (self : Player) (amount : Z) :
  0 ≤ chips self → 0 ≤ amount →
  let p' := (place_bet self amount).1 in
  let bet_amount := (place_bet self amount).2 in
  (chips self ≤ amount →
     is_all_in p' = true ∧ chips p' = 0 ∧ bet_amount = chips self)
  ∧ (amount < chips self →
     chips p' = chips self - amount ∧ bet_amount = amount
     ∧ is_all_in p' = is_all_in self)
  ∧ player.current_bet p' = player.current_bet self + bet_amount
  ∧ name p' = name self ∧ hand p' = hand self
  ∧ has_folded p' = has_folded self.
Proof.
  intros _ _. unfold place_bet.
  destruct (Z.leb_spec (chips self) amount); simpl;
    repeat split; intros; try reflexivity; lia.
Qed.

Lemma place_bet_spec_witness :
  let self := init "Ann" 50 in
  is_all_in (place_bet self 100).1 = true
  ∧ chips (place_bet self 100).1 = 0
  ∧ (place_bet self 100).2 = chips self.
Proof.
  refine (proj1 (place_bet_spec (init "Ann" 50) 100 _ _) _); by vm_compute.
Defined.

(** ** Conservation of chips *)

Lemma place_bet_stake (p : Player) (amount : Z) :
  stake (place_bet p amount).1 = stake p.
Proof.
  unfold place_bet, stake.
  destruct (Z.leb_spec (chips p) amount); simpl; lia.
Qed.

Lemma place_bet_committed (p : Player) (amount : Z) :
  (place_bet p amount).2
  = player.current_bet (place_bet p amount).1 - player.current_bet p.
Proof.
  unfold place_bet.
  destruct (Z.leb_spec (chips p) amount); simpl; lia.
Qed.

Lemma place_bet_chips_nonneg (p : Player) (amount : Z) :
  0 ≤ chips (place_bet p amount).1.
Proof.
  unfold place_bet.
  destruct (Z.leb_spec (chips p) amount); simpl; lia.
Qed.

Lemma sumZ_insert (f : Player → Z) (ps : list Player) (i : nat) (p p' : Player) :
  ps !! i = Some p →
  sumZ f (<[i := p']> ps) = sumZ f ps - f p + f p'.
Proof.
  revert i. induction ps as [|q ps IH]; intros [|i] Hi; simpl in *; try done.
  - inversion Hi; subst. lia.
  - rewrite (IH i Hi). lia.
Qed.

Lemma ledger_step_refl g : ledger_step g g.
Proof. split; auto; lia. Qed.

Lemma ledger_step_trans g1 g2 g3 :
  ledger_step g1 g2 → ledger_step g2 g3 → ledger_step g1 g3.
Proof.
  intros [] []. split; auto; try lia; congruence.
Qed.

Lemma ledger_fold g i p :
  players g !! i = Some p → ledger_step g (set_player g i (fold p)).
Proof.
  intros Hi. split; unfold total_stake, total_bets; simpl.
  - rewrite (sumZ_insert _ _ _ _ _ Hi). unfold stake; simpl. lia.
  - rewrite (sumZ_insert _ _ _ _ _ Hi). simpl. lia.
  - intros Hall. apply Forall_insert; [done|].
    simpl. eapply Forall_lookup_1 in Hall; eauto.
  - apply length_insert.
Qed.

Lemma ledger_place_bet g i p amount :
  players g !! i = Some p →
  ledger_step g
    (add_pot (set_player g i (place_bet p amount).1) (place_bet p amount).2).
Proof.
  intros Hi. split; unfold total_stake, total_bets; simpl.
  - rewrite (sumZ_insert _ _ _ _ _ Hi), place_bet_stake. lia.
  - rewrite (sumZ_insert _ _ _ _ _ Hi), place_bet_committed. lia.
  - intros Hall. apply Forall_insert; [done|]. apply place_bet_chips_nonneg.
  - apply length_insert.
Qed.

Lemma ledger_process_decision d i p r :
  players (game r) !! i = Some p →
  ledger_step (game r) (game (process_decision d i p r)).
Proof.
  intros Hi. unfold process_decision.
  destruct d as [[| |] amount].
  - simpl. by apply ledger_fold.
  - destruct (0 <? amount).
    + pose proof (ledger_place_bet _ _ _ amount Hi) as H.
      destruct (place_bet p amount) as [p' actual]. exact H.
    + apply ledger_step_refl.
  - pose proof (ledger_place_bet _ _ _ amount Hi) as H.
    destruct (place_bet p amount) as [p' actual]. simpl in *.
    destruct H as [H1 H2 H3 H4]. split; done.
Qed.

Lemma ledger_loop_body pol i r :
  ledger_step (game r) (game (loop_body pol i r).1).
Proof.
  unfold loop_body.
  destruct (players (game r) !! i) as [p|] eqn:Hi; [|apply ledger_step_refl].
  destruct (has_folded p || is_all_in p); [apply ledger_step_refl|].
  destruct (needs_to_act r i p); simpl; [|apply ledger_step_refl].
  destruct (bool_decide _ && _); simpl; [apply ledger_step_refl|].
  unfold take_action. destruct (pol _ _ _ _ _) as [d|e]; simpl.
  - by apply ledger_process_decision.
  - apply ledger_step_refl.
Qed.

Lemma ledger_sweep pol seats r :
  ledger_step (game r) (game (sweep pol seats r).1).
Proof.
  revert r. induction seats as [|i seats IH]; intros r; simpl.
  - apply ledger_step_refl.
  - pose proof (ledger_loop_body pol i r) as H.
    destruct (loop_body pol i r) as [r' [| |e]]; simpl in *; [done| |done].
    eapply ledger_step_trans; [exact H | apply IH].
Qed.

Lemma ledger_while_loop pol fuel r :
  ledger_step (game r) (game (state_of (while_loop pol fuel r))).
Proof.
  revert r. induction fuel as [|fuel IH]; intros r; simpl.
  - apply ledger_step_refl.
  - pose proof (ledger_sweep pol (seq 0 (length (players (game r)))) (begin_sweep r)) as H.
    destruct (sweep pol _ (begin_sweep r)) as [r' [| |e]]; simpl in *; [done| |done].
    destruct (betting_complete r'); simpl; [done|].
    eapply ledger_step_trans; [exact H | apply IH].
Qed.

Lemma ledger_betting_round pol fuel g :
  ledger_step g (game (state_of (betting_round pol fuel g))).
Proof.
  unfold betting_round.
  destruct (count_in_round (players g) <=? 1)%nat; simpl.
  - apply ledger_step_refl.
  - apply (ledger_while_loop pol fuel (enter_round g)).
Qed.

(** C2: [place_bet] keeps [chips + current_bet] and leaves chips
    non-negative; hence, whatever the policy decides and however far
    [betting_round] has run (finished, left by an exception of
    [make_decision], or stopped after any number of sweeps), the sum over
    all players of [chips + current_bet] is the one before the round, the
    pot has grown by exactly what the players committed (the growth of
    their bets, which is the loss of their stacks), and no stack is
    negative. *)
Theorem chips_conserved (pol : Policy) (fuel : nat) (g : PokerGame)
    (p : Player) (amount : Z) :
  0 ≤ chips p → 0 ≤ amount →
  Forall (λ q, 0 ≤ chips q) (players g) →
  let g' := game (state_of (betting_round pol fuel g)) in
  (chips (place_bet p amount).1 + player.current_bet (place_bet p amount).1
     = chips p + player.current_bet p
   ∧ 0 ≤ chips (place_bet p amount).1)
  ∧ total_stake g' = total_stake g
  ∧ pot g' - pot g = total_bets g' - total_bets g
  ∧ pot g' - pot g = total_chips g - total_chips g'
  ∧ Forall (λ q, 0 ≤ chips q) (players g').
Proof.
  intros _ _ Hnn g'.
  destruct (ledger_betting_round pol fuel g) as [Hs Hp Hn _].
  fold g' in Hs, Hp, Hn.
  split; [split; [apply place_bet_stake | apply place_bet_chips_nonneg]|].
  repeat split; auto.
  assert (Hsplit : ∀ ps, sumZ stake ps = sumZ chips ps + sumZ player.current_bet ps).
  { induction ps as [|q ps IH]; simpl; [done|]. unfold stake at 1. lia. }
  unfold total_stake, total_bets, total_chips in *.
  rewrite !Hsplit in Hs. lia.
Qed.

(** ** Termination of the betting round *)

Lemma round_ok_same_game r r' :
  game r' = game r → last_raiser r' = last_raiser r → round_ok r → round_ok r'.
Proof.
  intros Hg Hl [H1 H2 H3 H4]. split; rewrite ?Hg, ?Hl; auto.
Qed.

(** Visiting a seat without changing the table. *)
Lemma sweep_inv_skip T0 S0 seen i r r' :
  sweep_inv T0 S0 seen r →
  game r' = game r → last_raiser r' = last_raiser r →
  (∀ p, players (game r) !! i = Some p → in_round p = true →
        player.current_bet p = current_bet (game r)) →
  sweep_inv T0 S0 (i :: seen) r'.
Proof.
  intros [Hok HT HS HK] Hg Hl Hi. split; rewrite ?Hg.
  - by eapply round_ok_same_game.
  - done.
  - done.
  - intros HT0 j p Hj Hp Hin. apply elem_of_cons in Hj as [->|Hj]; eauto.
Qed.

(** Visiting seat [i] and replacing its player by [p'], the table bet
    becoming [T']. *)
Lemma sweep_inv_update T0 S0 seen i p p' r r' :
  sweep_inv T0 S0 seen r →
  players (game r) !! i = Some p →
  players (game r') = <[i := p']> (players (game r)) →
  minimum_bet (game r') = minimum_bet (game r) →
  current_bet (game r) ≤ current_bet (game r') →
  0 ≤ chips p' →
  chips p' + (current_bet (game r') - current_bet (game r)) ≤ chips p →
  (in_round p' = true → player.current_bet p' = current_bet (game r')) →
  (last_raiser r' = Some i ∧ player.current_bet p' = current_bet (game r'))
  ∨ (last_raiser r' = last_raiser r
     ∧ current_bet (game r') = current_bet (game r)
     ∧ (last_raiser r = Some i → player.current_bet p' = current_bet (game r'))) →
  sweep_inv T0 S0 (i :: seen) r'.
Proof.
  intros [[Hc Hb Hr Hm] HT HS HK] Hi Hps Hmin HTT Hp'c Hp'ch Hp'in Hlr.
  assert (Hlen : (i < length (players (game r)))%nat) by by eapply lookup_lt_Some.
  split; [split|..].
  - intros j q. rewrite Hps, list_lookup_insert_Some.
    intros [(-> & <- & _)|(Hne & Hq)]; eauto.
  - intros j q. rewrite Hps, list_lookup_insert_Some.
    intros [(-> & <- & _)|(Hne & Hq)] Hin.
    + rewrite Hp'in; [lia | done].
    + specialize (Hb j q Hq Hin). lia.
  - intros k Hk. rewrite Hps.
    destruct Hlr as [[Hl Hbet]|(Hl & HTeq & Hbet)].
    + rewrite Hl in Hk. inversion Hk; subst k.
      exists p'. by rewrite list_lookup_insert_eq.
    + rewrite Hl in Hk. destruct (decide (k = i)) as [->|Hne].
      * exists p'. rewrite list_lookup_insert_eq by done. auto.
      * destruct (Hr k Hk) as (q & Hq & Hqb). exists q.
        rewrite list_lookup_insert_ne by done. split; [done | lia].
  - lia.
  - lia.
  - unfold total_chips in *. rewrite Hps, (sumZ_insert _ _ _ _ _ Hi). lia.
  - intros HT0 j q Hj. rewrite Hps, list_lookup_insert_Some.
    intros [(-> & <- & _)|(Hne & Hq)] Hin; [auto|].
    apply elem_of_cons in Hj as [->|Hj]; [done|].
    rewrite (HK ltac:(lia) j q Hj Hq Hin). lia.
Qed.

Lemma call_amount_nonneg p table_bet : 0 ≤ call_amount p table_bet.
Proof. unfold call_amount. destruct (Z.ltb_spec (player.current_bet p) table_bet); lia. Qed.

Lemma in_round_place_bet p amount :
  in_round (place_bet p amount).1 = true → amount < chips p.
Proof.
  unfold place_bet, in_round.
  destruct (Z.leb_spec (chips p) amount); simpl; [|done].
  rewrite andb_false_r. done.
Qed.

Section termination.
Variable pol : Policy.
Hypothesis pol_conforms : policy_conforms pol.

Lemma process_decision_inv T0 S0 seen d i p r :
  policy_amount (current_bet (game r)) (minimum_bet (game r)) p d →
  sweep_inv T0 S0 seen r →
  players (game r) !! i = Some p →
  in_round p = true →
  sweep_inv T0 S0 (i :: seen) (process_decision d i p r).
Proof.
  intros Hd Hinv Hi Hin.
  pose proof Hinv as [[Hc Hb Hr Hm] HT HS HK].
  pose proof (Hb i p Hi Hin) as Hbp. pose proof (Hc i p Hi) as Hcp.
  unfold process_decision.
  destruct d as [[| |] amount]; simpl in Hd.
  - (* fold *)
    eapply (sweep_inv_update _ _ _ i p (fold p)); eauto; simpl; try lia.
    + unfold in_round; simpl. done.
    + right. repeat split; auto. intros Hl.
      destruct (Hr i Hl) as (q & Hq & Hqb). congruence.
  - (* call *)
    subst amount. unfold call_amount.
    destruct (Z.ltb_spec (player.current_bet p) (current_bet (game r))) as [Hlt|Hge].
    + replace (0 <? current_bet (game r) - player.current_bet p) with true
        by (symmetry; apply Z.ltb_lt; lia).
      pose proof (in_round_place_bet p (current_bet (game r) - player.current_bet p)) as Hpin.
      pose proof (place_bet_chips_nonneg p (current_bet (game r) - player.current_bet p)) as Hnn.
      revert Hpin Hnn. unfold place_bet.
      destruct (Z.leb_spec (chips p) (current_bet (game r) - player.current_bet p));
        simpl; intros Hpin Hnn.
      * eapply (sweep_inv_update _ _ _ i p); eauto; simpl; try lia.
        -- intros Hx. specialize (Hpin Hx). lia.
        -- right. repeat split; auto. intros Hl.
           destruct (Hr i Hl) as (q & Hq & Hqb).
           assert (q = p) by congruence. subst q. lia.
      * eapply (sweep_inv_update _ _ _ i p); eauto; simpl; try lia.
        right. repeat split; auto. lia.
    + simpl. eapply sweep_inv_skip; eauto.
      intros q Hq _. assert (q = p) by congruence. subst q. lia.
  - (* raise *)
    destruct Hd as (raise_amount & -> & Hlo & Hhi).
    pose proof (call_amount_nonneg p (current_bet (game r))) as Hca.
    assert (Hsum : player.current_bet p + call_amount p (current_bet (game r))
                   = current_bet (game r)).
    { unfold call_amount.
      destruct (Z.ltb_spec (player.current_bet p) (current_bet (game r))); lia. }
    unfold place_bet.
    destruct (Z.leb_spec (chips p) (call_amount p (current_bet (game r)) + raise_amount));
      simpl.
    + eapply (sweep_inv_update _ _ _ i p); eauto; simpl; try lia.
    + eapply (sweep_inv_update _ _ _ i p); eauto; simpl; try lia.
Qed.

(** A call that raises leaves the state as it was; a call that returns
    leaves the seat visited. *)
Lemma take_action_inv T0 S0 seen i p r :
  sweep_inv T0 S0 seen r →
  players (game r) !! i = Some p →
  in_round p = true →
  match take_action pol i p r with
  | py.Ok r' => sweep_inv T0 S0 (i :: seen) r'
  | py.Exn _ => True
  end.
Proof.
  intros Hinv Hi Hin. unfold take_action.
  destruct (pol _ _ _ _ _) as [d|e] eqn:Hd; [|done].
  apply process_decision_inv; auto. by eapply pol_conforms.
Qed.

Lemma loop_body_inv T0 S0 seen i r :
  sweep_inv T0 S0 seen r →
  match (loop_body pol i r).2 with
  | Raises _ => (loop_body pol i r).1 = r
  | Returns | Continues => sweep_inv T0 S0 (i :: seen) (loop_body pol i r).1
  end.
Proof.
  intros Hinv. pose proof Hinv as [[Hc Hb Hr Hm] HT HS HK].
  unfold loop_body.
  destruct (players (game r) !! i) as [p|] eqn:Hi; simpl.
  - destruct (has_folded p || is_all_in p) eqn:Hout; simpl.
    { eapply sweep_inv_skip; eauto. intros q Hq Hin.
      assert (q = p) by congruence. subst q.
      unfold in_round in Hin. destruct (has_folded p), (is_all_in p); done. }
    assert (Hin : in_round p = true).
    { unfold in_round. destruct (has_folded p), (is_all_in p); done. }
    pose proof (take_action_inv T0 S0 seen i p r Hinv Hi Hin) as Hact.
    destruct (needs_to_act r i p) eqn:Hneeds; simpl.
    + destruct (bool_decide (last_raiser r = Some i)) eqn:Hl; simpl.
      * apply bool_decide_eq_true in Hl.
        destruct (others_settled r i); simpl.
        -- eapply sweep_inv_skip; eauto. intros q Hq _.
           destruct (Hr i Hl) as (q' & Hq' & Hqb). congruence.
        -- destruct (take_action pol i p r) as [r'|e]; simpl; [|done].
           by destruct (_ <=? _)%nat.
      * destruct (take_action pol i p r) as [r'|e]; simpl; [|done].
        by destruct (_ <=? _)%nat.
    + assert (Hskip : sweep_inv T0 S0 (i :: seen) r).
      { eapply sweep_inv_skip; eauto. intros q Hq _.
        assert (q = p) by congruence. subst q.
        unfold needs_to_act in Hneeds.
        apply orb_false_elim in Hneeds as [Hneeds _].
        apply orb_false_elim in Hneeds as [Hlt _].
        apply Z.ltb_ge in Hlt. specialize (Hb i p Hi Hin). lia. }
      by destruct (_ <=? _)%nat.
  - eapply sweep_inv_skip; eauto. intros q Hq. congruence.
Qed.

Lemma sweep_inv_all T0 S0 seats seen r r' :
  sweep_inv T0 S0 seen r →
  sweep pol seats r = (r', Continues) →
  sweep_inv T0 S0 (reverse seats ++ seen) r'.
Proof.
  revert seen r. induction seats as [|i seats IH]; intros seen r Hinv; simpl.
  - intros [= <-]. done.
  - pose proof (loop_body_inv _ _ _ i _ Hinv) as H.
    rewrite reverse_cons, <- app_assoc. simpl.
    destruct (loop_body pol i r) as [r1 [| |e]]; simpl in *; [done| |done].
    intros Hs. by eapply IH.
Qed.

Lemma sumZ_nonneg (f : Player → Z) ps :
  (∀ j p, ps !! j = Some p → 0 ≤ f p) → 0 ≤ sumZ f ps.
Proof.
  induction ps as [|q ps IH]; intros H; simpl; [lia|].
  pose proof (H 0%nat q eq_refl). 
  assert (0 ≤ sumZ f ps) by (apply IH; intros j p Hj; apply (H (S j) p Hj)).
  lia.
Qed.

Lemma round_ok_begin_sweep r : round_ok r → round_ok (begin_sweep r).
Proof. by apply round_ok_same_game. Qed.

(** A sweep that neither returns nor completes the round has seen a raise
    above the table bet, paid out of some stack. *)
Lemma sweep_progress r r' :
  round_ok r →
  sweep pol (seq 0 (length (players (game r)))) (begin_sweep r) = (r', Continues) →
  betting_complete r' = false →
  round_ok r' ∧ total_chips (game r') < total_chips (game r).
Proof.
  intros Hok Hsweep Hcomplete.
  assert (Hinv0 : sweep_inv (current_bet (game r)) (total_chips (game r)) []
                    (begin_sweep r)).
  { split; simpl; [by apply round_ok_begin_sweep | lia | lia |].
    intros _ j p Hj. by apply elem_of_nil in Hj. }
  pose proof (sweep_inv_all _ _ _ _ _ _ Hinv0 Hsweep) as [Hok' HT HS HK].
  split; [done|].
  destruct (decide (current_bet (game r') = current_bet (game r))) as [Heq|Hne];
    [|lia].
  exfalso. specialize (HK Heq).
  pose proof (ledger_sweep pol (seq 0 (length (players (game r)))) (begin_sweep r))
    as [_ _ _ Hlen].
  rewrite Hsweep in Hlen. simpl in Hlen.
  unfold betting_complete in Hcomplete.
  destruct (count_in_round _ <=? 1)%nat; [done|].
  destruct (negb (round_had_action r')); [done|].
  apply not_true_iff_false in Hcomplete. apply Hcomplete.
  apply forallb_forall. intros p Hp.
  apply list_elem_of_In, list_elem_of_lookup in Hp as [j Hj].
  unfold settled.
  destruct (in_round p) eqn:Hin.
  - rewrite (HK j p); [by rewrite Z.eqb_refl | | done | done].
    rewrite app_nil_r, elem_of_reverse, elem_of_seq.
    apply lookup_lt_Some in Hj. lia.
  - unfold in_round in Hin.
    destruct (has_folded p), (is_all_in p); simpl in *; try done;
      by rewrite ?orb_true_r.
Qed.

Lemma while_loop_terminates fuel r :
  round_ok r →
  (Z.to_nat (total_chips (game r)) < fuel)%nat →
  (∃ how r', while_loop pol fuel r = Finished how r')
  ∨ (∃ e r', while_loop pol fuel r = Raised e r').
Proof.
  revert r. induction fuel as [|fuel IH]; intros r Hok Hfuel; [lia|].
  simpl.
  destruct (sweep pol _ (begin_sweep r)) as [r' [| |e]] eqn:Hsweep;
    [by eauto| |by eauto].
  destruct (betting_complete r') eqn:Hcomplete; [by eauto|].
  destruct (sweep_progress _ _ Hok Hsweep Hcomplete) as [Hok' Hless].
  apply IH; [done|].
  assert (0 ≤ total_chips (game r')).
  { apply sumZ_nonneg. by destruct Hok'. }
  lia.
Qed.

(** The state kept between iterations is an invariant of the round. *)
Lemma round_ok_loop_body i r : round_ok r → round_ok (loop_body pol i r).1.
Proof.
  intros Hok.
  assert (Hinv : sweep_inv (current_bet (game r)) (total_chips (game r)) [] r).
  { split; [done | lia | lia |]. intros _ j p Hj. by apply elem_of_nil in Hj. }
  pose proof (loop_body_inv _ _ _ i _ Hinv) as H.
  destruct (loop_body pol i r) as [r' [| |e]]; simpl in *;
    [by destruct H | by destruct H | by subst r'].
Qed.

Lemma round_ok_sweep seats r : round_ok r → round_ok (sweep pol seats r).1.
Proof.
  revert r. induction seats as [|i seats IH]; intros r Hok; simpl; [done|].
  pose proof (round_ok_loop_body i r Hok) as H.
  destruct (loop_body pol i r) as [r1 [| |e]]; simpl in *; [done| |done].
  by apply IH.
Qed.

Lemma round_ok_while_loop fuel r :
  round_ok r → round_ok (state_of (while_loop pol fuel r)).
Proof.
  revert r. induction fuel as [|fuel IH]; intros r Hok; simpl; [done|].
  pose proof (round_ok_sweep (seq 0 (length (players (game r)))) (begin_sweep r)
                (round_ok_begin_sweep r Hok)) as H.
  destruct (sweep pol _ (begin_sweep r)) as [r1 [| |e]]; simpl in *; [done| |done].
  destruct (betting_complete r1); simpl; [done|]. by apply IH.
Qed.

End termination.

(** An exception that leaves the round is the exception of a call of
    [make_decision], for a player in the round, on the state the round is
    left in. *)
Lemma loop_body_raises pol i r r' e :
  loop_body pol i r = (r', Raises e) →
  r' = r
  ∧ ∃ p, players (game r) !! i = Some p ∧ in_round p = true
         ∧ pol (decisions r) i p (current_bet (game r)) (minimum_bet (game r))
           = py.Exn e.
Proof.
  unfold loop_body.
  destruct (players (game r) !! i) as [p|] eqn:Hi; [|done].
  destruct (has_folded p || is_all_in p) eqn:Hout; [done|].
  assert (Hin : in_round p = true).
  { unfold in_round. destruct (has_folded p), (is_all_in p); done. }
  destruct (needs_to_act r i p); simpl.
  - destruct (bool_decide _ && _); simpl; [done|].
    unfold take_action. destruct (pol _ _ _ _ _) as [d|e'] eqn:Hd.
    + by destruct (_ <=? _)%nat.
    + intros [= <- <-]. split; [done|]. by exists p.
  - by destruct (_ <=? _)%nat.
Qed.

Lemma sweep_raises pol seats r r' e :
  sweep pol seats r = (r', Raises e) →
  ∃ i p, players (game r') !! i = Some p ∧ in_round p = true
         ∧ pol (decisions r') i p (current_bet (game r')) (minimum_bet (game r'))
           = py.Exn e.
Proof.
  revert r. induction seats as [|i seats IH]; intros r; simpl; [done|].
  destruct (loop_body pol i r) as [r1 [| |e1]] eqn:Hbody; [done|by apply IH|].
  intros [= <- <-]. apply loop_body_raises in Hbody as (-> & p & ?).
  by exists i, p.
Qed.

Lemma while_loop_raises pol fuel r r' e :
  while_loop pol fuel r = Raised e r' →
  ∃ i p, players (game r') !! i = Some p ∧ in_round p = true
         ∧ pol (decisions r') i p (current_bet (game r')) (minimum_bet (game r'))
           = py.Exn e.
Proof.
  revert r. induction fuel as [|fuel IH]; intros r; simpl; [done|].
  destruct (sweep pol _ (begin_sweep r)) as [r1 [| |e1]] eqn:Hsweep; [done| |].
  - destruct (betting_complete r1); [done|]. apply IH.
  - intros [= <- <-]. by eapply sweep_raises.
Qed.

Lemma betting_round_raises pol fuel g r' e :
  betting_round pol fuel g = Raised e r' →
  ∃ i p, players (game r') !! i = Some p ∧ in_round p = true
         ∧ pol (decisions r') i p (current_bet (game r')) (minimum_bet (game r'))
           = py.Exn e.
Proof.
  unfold betting_round. destruct (_ <=? _)%nat; [done|].
  apply while_loop_raises.
Qed.

(** [setup_hand] leaves the roster in the state the round needs: positive
    stacks and no bet in front of anybody. *)
Lemma setup_hand_start_state (g : PokerGame) :
  let g' := (setup_hand g).1 in
  Forall (λ p, 0 ≤ chips p) (players g')
  ∧ Forall (λ p, in_round p = true → player.current_bet p ≤ current_bet g')
      (players g')
  ∧ minimum_bet g' = minimum_bet g.
Proof.
  simpl. split_and!; [| |done].
  - apply Forall_forall. intros p Hp. apply list_elem_of_filter in Hp as [Hp _]. lia.
  - apply Forall_forall. intros p Hp. apply list_elem_of_filter in Hp as [_ Hp].
    apply list_elem_of_fmap in Hp as (q & -> & _). simpl. lia.
Qed.

Lemma betting_round_ends pol fuel g :
  policy_conforms pol →
  Forall (λ p, 0 ≤ chips p) (players g) →
  Forall (λ p, in_round p = true → player.current_bet p ≤ current_bet g)
    (players g) →
  0 ≤ minimum_bet g →
  (Z.to_nat (total_chips g) < fuel)%nat →
  (∃ how r, betting_round pol fuel g = Finished how r)
  ∨ (∃ e r, betting_round pol fuel g = Raised e r).
Proof.
  intros Hpol Hchips Hbets Hmin Hfuel. unfold betting_round.
  destruct (count_in_round (players g) <=? 1)%nat; [by eauto|].
  apply while_loop_terminates; [done | | done].
  split; simpl.
  - intros j p Hj. exact (Forall_lookup_1 _ _ _ _ Hchips Hj).
  - intros j p Hj. exact (Forall_lookup_1 _ _ _ _ Hbets Hj).
  - done.
  - done.
Qed.

(** C3: [betting_round] terminates. For every roster with non-negative
    stacks in the state a hand starts from (nobody still in the round has
    bet more than the table bet; [setup_hand] gives zero bets against a
    zero table bet), a non-negative minimum bet, and every policy whose
    amounts are those the policies produce, the [while] loop is left after
    at most one sweep per chip on the table plus one: every sweep that does
    not end the round contains a raise above the table bet, which is paid
    from the stacks. The loop is left by the exception of a call of
    [make_decision] when one raises; with a policy none of whose calls
    raises, the round returns. *)
Theorem betting_round_terminates (pol : Policy) (g : PokerGame) (fuel : nat) :
  policy_conforms pol →
  Forall (λ p, 0 ≤ chips p) (players g) →
  Forall (λ p, in_round p = true → player.current_bet p ≤ current_bet g)
    (players g) →
  0 ≤ minimum_bet g →
  (Z.to_nat (total_chips g) < fuel)%nat →
  ((∃ how r, betting_round pol fuel g = Finished how r)
   ∨ (∃ e r i p,
        betting_round pol fuel g = Raised e r
        ∧ players (game r) !! i = Some p
        ∧ pol (decisions r) i p (current_bet (game r)) (minimum_bet (game r))
          = py.Exn e))
  ∧ (never_raises pol → ∃ how r, betting_round pol fuel g = Finished how r).
Proof.
  intros Hpol Hchips Hbets Hmin Hfuel.
  destruct (betting_round_ends pol fuel g Hpol Hchips Hbets Hmin Hfuel)
    as [Hfin|(e & r & Hrun)].
  - split; [by left | done].
  - destruct (betting_round_raises _ _ _ _ _ Hrun) as (i & p & Hi & _ & Hexn).
    split.
    + right. by exists e, r, i, p.
    + intros Hnever. by apply Hnever in Hexn.
Qed.

(** ** Showdown *)

Lemma get_value_range (c : card.Card) : 0 ≤ card.get_value c ≤ 12.
Proof. destruct c as [[] s]; vm_compute; split; discriminate. Qed.

Lemma foldr_max_shift (xs : list Z) (x y : Z) :
  foldr Z.max (Z.max x y) xs = Z.max y (foldr Z.max x xs).
Proof. induction xs as [|z xs IH]; simpl; lia. Qed.

Lemma fold_left_max_foldr (xs : list Z) (x : Z) :
  fold_left Z.max xs x = foldr Z.max x xs.
Proof.
  revert x. induction xs as [|y xs IH]; intros x; simpl; [done|].
  by rewrite IH, foldr_max_shift.
Qed.

Lemma foldr_max_base (xs : list Z) (a b : Z) :
  a ≤ b → foldr Z.max a xs ≤ foldr Z.max b xs.
Proof. intros Hab. induction xs as [|x xs IH]; simpl; lia. Qed.

Lemma top_card_nonneg p : 0 ≤ top_card p.
Proof. unfold top_card. induction (map _ _) as [|x xs IH]; simpl; lia. Qed.

Lemma max_of_hand (p : Player) :
  hand p ≠ [] → py.max_of (map card.get_value (hand p)) = py.Ok (top_card p).
Proof.
  unfold top_card. destruct (hand p) as [|c cs]; [done|]. intros _. simpl.
  f_equal. rewrite fold_left_max_foldr.
  pose proof (get_value_range c) as Hc.
  induction cs as [|d cs IH]; simpl; lia.
Qed.

Lemma max_of_empty (p : Player) :
  hand p = [] → py.max_of (map card.get_value (hand p)) = py.Exn py.ValueError.
Proof. by intros ->. Qed.

Lemma seats_where_elem f k ps j pj :
  ps !! j = Some pj → f pj = true → ((k + j)%nat, pj) ∈ seats_where f k ps.
Proof.
  revert k j. induction ps as [|q ps IH]; intros k j Hj Hf; [done|].
  simpl. destruct j as [|j]; simpl in Hj.
  - inversion Hj; subst. rewrite Hf, Nat.add_0_r. apply list_elem_of_here.
  - specialize (IH (S k) j Hj Hf).
    replace (S k + j)%nat with (k + S j)%nat in IH by lia.
    destruct (f q); [by apply list_elem_of_further | done].
Qed.

(** Where [seats_where] found its entries. *)
Lemma seats_where_split f k ps pre w pw post :
  seats_where f k ps = pre ++ (w, pw) :: post →
  (k ≤ w)%nat ∧ ps !! (w - k)%nat = Some pw ∧ f pw = true
  ∧ ∀ j pj, ps !! j = Some pj → f pj = true →
      ((k + j < w)%nat → (k + j, pj)%nat ∈ pre)
      ∧ ((w < k + j)%nat → (k + j, pj)%nat ∈ post).
Proof.
  revert k pre. induction ps as [|q ps IH]; intros k pre Heq; simpl in Heq.
  - by destruct pre.
  - destruct (f q) eqn:Hq.
    + destruct pre as [|[k' q'] pre]; simpl in Heq.
      * inversion Heq; subst. clear Heq.
        replace (w - w)%nat with 0%nat by lia. repeat split; auto.
        -- destruct j; lia.
        -- intros Hlt. destruct j as [|j]; [lia|]. simpl in H.
           pose proof (seats_where_elem f (S w) ps j pj H H0) as Hall.
           by replace (S w + j)%nat with (w + S j)%nat in Hall by lia.
      * inversion Heq; subst. clear Heq.
        destruct (IH _ _ H2) as (Hle & Hw & Hf & Hall).
        split; [lia|]. split.
        { replace (w - k')%nat with (S (w - S k')) by lia. done. }
        split; [done|]. intros j pj Hj Hfj.
        destruct j as [|j]; simpl in Hj.
        -- inversion Hj; subst. rewrite Nat.add_0_r. split; [|lia].
           intros _. apply list_elem_of_here.
        -- destruct (Hall j pj Hj Hfj) as [Ha Hb].
           replace (k' + S j)%nat with (S k' + j)%nat by lia.
           split; [|done]. intros Hlt. apply list_elem_of_further. auto.
    + destruct (IH _ _ Heq) as (Hle & Hw & Hf & Hall).
      split; [lia|]. split.
      { replace (w - k)%nat with (S (w - S k)) by lia. done. }
      split; [done|]. intros j pj Hj Hfj.
      destruct j as [|j]; simpl in Hj.
      -- inversion Hj; subst. congruence.
      -- replace (k + S j)%nat with (S k + j)%nat by lia. auto.
Qed.

(** The showdown loop keeps the first strict maximum. *)
Lemma showdown_spec active best best_value :
  (∀ j pj, (j, pj) ∈ active → hand pj ≠ []) →
  ∃ res, showdown active best best_value = py.Ok res
    ∧ ((res = best ∧ ∀ j pj, (j, pj) ∈ active → top_card pj ≤ best_value)
       ∨ ∃ pre w pw post,
           active = pre ++ (w, pw) :: post ∧ res = Some w
           ∧ best_value < top_card pw
           ∧ (∀ j pj, (j, pj) ∈ pre → top_card pj < top_card pw)
           ∧ (∀ j pj, (j, pj) ∈ post → top_card pj ≤ top_card pw)).
Proof.
  revert best best_value.
  induction active as [|[i p] rest IH]; intros best bv Hhands; simpl.
  - exists best. split; [done|]. left. split; [done|]. intros j pj Hj.
    by apply elem_of_nil in Hj.
  - rewrite max_of_hand by (eapply Hhands; apply list_elem_of_here). simpl.
    assert (Hrest : ∀ j pj, (j, pj) ∈ rest → hand pj ≠ []).
    { intros j pj Hj. eapply Hhands. by apply list_elem_of_further. }
    destruct (Z.ltb_spec bv (top_card p)) as [Hlt|Hge].
    + destruct (IH (Some i) (top_card p) Hrest) as (res & Hres & Hcase).
      exists res. split; [done|]. right.
      destruct Hcase as [[-> Hall]|(pre & w & pw & post & -> & -> & Hbv & Hpre & Hpost)].
      * exists [], i, p, rest. repeat split; auto.
        intros j pj Hj. by apply elem_of_nil in Hj.
      * exists ((i, p) :: pre), w, pw, post. repeat split; auto; [lia|].
        intros j pj Hj. apply elem_of_cons in Hj as [[= -> ->]|Hj]; eauto.
    + destruct (IH best bv Hrest) as (res & Hres & Hcase).
      exists res. split; [done|].
      destruct Hcase as [[-> Hall]|(pre & w & pw & post & -> & -> & Hbv & Hpre & Hpost)].
      * left. split; [done|]. intros j pj Hj.
        apply elem_of_cons in Hj as [[= -> ->]|Hj]; eauto.
      * right. exists ((i, p) :: pre), w, pw, post. repeat split; auto.
        intros j pj Hj. apply elem_of_cons in Hj as [[= -> ->]|Hj]; [lia|eauto].
Qed.

Lemma showdown_empty_hand active best best_value j pj :
  (j, pj) ∈ active → hand pj = [] →
  showdown active best best_value = py.Exn py.ValueError.
Proof.
  revert best best_value.
  induction active as [|[i p] rest IH]; intros best bv Hj Hempty.
  - by apply elem_of_nil in Hj.
  - simpl. destruct (hand p) as [|c cs] eqn:Hp; [done|].
    apply elem_of_cons in Hj as [[= -> ->]|Hj]; [congruence|].
    change (py.max_of _) with (py.max_of (map card.get_value (c :: cs))).
    rewrite <- Hp, max_of_hand by congruence. simpl.
    destruct (bv <? top_card p); eauto.
Qed.

Lemma seats_where_lookup f k ps j pj :
  (j, pj) ∈ seats_where f k ps →
  (k ≤ j)%nat ∧ ps !! (j - k)%nat = Some pj ∧ f pj = true.
Proof.
  intros Hj. apply list_elem_of_split in Hj as (pre & post & Heq).
  apply seats_where_split in Heq. tauto.
Qed.

Lemma award_lookup g w pw :
  players g !! w = Some pw →
  players (award g w) !! w = Some (paid pw (pot g))
  ∧ ∀ j, j ≠ w → players (award g w) !! j = players g !! j.
Proof.
  intros Hw. unfold award; simpl. split.
  - rewrite list_lookup_alter_eq, Hw. done.
  - intros j Hne. by rewrite list_lookup_alter_ne.
Qed.

Lemma not_folded_true p : not_folded p = true ↔ has_folded p = false.
Proof. unfold not_folded. by destruct (has_folded p). Qed.

Lemma determine_winner_single g i p :
  active_players g = [(i, p)] →
  determine_winner g = py.Ok (award g i)
  ∧ players g !! i = Some p ∧ has_folded p = false.
Proof.
  intros Hact. unfold determine_winner. rewrite Hact. split; [done|].
  assert (Hin : (i, p) ∈ active_players g) by (rewrite Hact; apply list_elem_of_here).
  apply seats_where_lookup in Hin as (_ & Hi & Hf).
  rewrite Nat.sub_0_r in Hi. by apply not_folded_true in Hf.
Qed.

Lemma determine_winner_showdown g :
  (2 ≤ length (active_players g))%nat →
  (∀ j pj, players g !! j = Some pj → has_folded pj = false → hand pj ≠ []) →
  ∃ w pw,
    players g !! w = Some pw ∧ has_folded pw = false
    ∧ determine_winner g = py.Ok (award g w)
    ∧ ∀ j pj, players g !! j = Some pj → has_folded pj = false →
        top_card pj ≤ top_card pw ∧ ((j < w)%nat → top_card pj < top_card pw).
Proof.
  intros Hlen Hhands. unfold determine_winner.
  destruct (active_players g) as [|[i p] [|x rest]] eqn:Hact;
    [simpl in Hlen; lia | simpl in Hlen; lia |].
  rewrite <- Hact.
  destruct (showdown_spec (active_players g) None (-1)) as (res & Hres & Hcase).
  { intros j pj Hj. apply seats_where_lookup in Hj as (_ & Hj & Hf).
    rewrite Nat.sub_0_r in Hj. apply not_folded_true in Hf. eauto. }
  rewrite Hres. simpl.
  destruct Hcase as [[-> Hall]|(pre & w & pw & post & Hsplit & -> & Hbv & Hpre & Hpost)].
  - exfalso. specialize (Hall i p). rewrite Hact in Hall.
    specialize (Hall (list_elem_of_here _ _)).
    pose proof (top_card_nonneg p). lia.
  - apply seats_where_split in Hsplit as (_ & Hw & Hf & Hall).
    rewrite Nat.sub_0_r in Hw. apply not_folded_true in Hf.
    exists w, pw. repeat split; auto.
    + destruct (Hall j pj H) as [Ha Hb]; [by apply not_folded_true|].
      simpl in Ha, Hb.
      destruct (Nat.lt_trichotomy j w) as [Hlt|[->|Hgt]].
      * specialize (Hpre _ _ (Ha Hlt)). lia.
      * assert (pj = pw) by congruence. subst. lia.
      * eauto.
    + intros Hlt. destruct (Hall j pj H) as [Ha _]; [by apply not_folded_true|].
      eauto.
Qed.

(** C6: given at least one player that has not folded (and, when two or
    more remain, cards in each of their hands), [determine_winner] pays
    the whole pot to one player [w] that has not folded and changes nobody
    else. With one player left that player is [w]; otherwise [w] holds the
    highest card value of all remaining players and every remaining player
    seated before [w] holds a strictly lower one: ties go to the earlier
    seat, and the pot is not split. *)
Theorem determine_winner_spec (g : PokerGame) :
  (1 ≤ length (active_players g))%nat →
  ((2 ≤ length (active_players g))%nat →
   ∀ j pj, players g !! j = Some pj → has_folded pj = false → hand pj ≠ []) →
  ∃ w pw,
    players g !! w = Some pw ∧ has_folded pw = false
    ∧ determine_winner g = py.Ok (award g w)
    ∧ ((2 ≤ length (active_players g))%nat →
       ∀ j pj, players g !! j = Some pj → has_folded pj = false →
         top_card pj ≤ top_card pw ∧ ((j < w)%nat → top_card pj < top_card pw))
    ∧ players (award g w) !! w = Some (paid pw (pot g))
    ∧ chips (paid pw (pot g)) = chips pw + pot g
    ∧ (∀ j, j ≠ w → players (award g w) !! j = players g !! j).
Proof.
  intros Hone Hhands.
  destruct (active_players g) as [|[i p] [|x rest]] eqn:Hact.
  - simpl in Hone. lia.
  - destruct (determine_winner_single g i p Hact) as (Hd & Hi & Hf).
    destruct (award_lookup g i p Hi) as [Ha Hb].
    exists i, p. split_and!; auto. intros Hlen. simpl in Hlen. lia.
  - assert (Hlen : (2 ≤ length (active_players g))%nat) by (rewrite Hact; simpl; lia).
    rewrite <- Hact in *.
    destruct (determine_winner_showdown g Hlen (Hhands Hlen))
      as (w & pw & Hw & Hf & Hd & Hmax).
    destruct (award_lookup g w pw Hw) as [Ha Hb].
    exists w, pw. split_and!; auto.
Qed.

(** C10: with two or more players left, [determine_winner] selects a
    winner when every remaining hand holds a card, and raises the
    [ValueError] of [max] on an empty sequence as soon as one of them is
    empty; with a single player left no hand is looked at, and that player
    receives the pot whatever the hand holds. *)
Theorem determine_winner_needs_cards (g : PokerGame) :
  ((2 ≤ length (active_players g))%nat →
   ((∀ j pj, players g !! j = Some pj → has_folded pj = false → hand pj ≠ []) →
    ∃ w pw, players g !! w = Some pw ∧ has_folded pw = false
            ∧ determine_winner g = py.Ok (award g w))
   ∧ ((∃ j pj, players g !! j = Some pj ∧ has_folded pj = false ∧ hand pj = []) →
      determine_winner g = py.Exn py.ValueError))
  ∧ (∀ i p, active_players g = [(i, p)] →
       determine_winner g = py.Ok (award g i)
       ∧ players (award g i) !! i = Some (paid p (pot g))).
Proof.
  split.
  - intros Hlen. split.
    + intros Hhands.
      destruct (determine_winner_showdown g Hlen Hhands) as (w & pw & Hw & Hf & Hd & _).
      eauto.
    + intros (j & pj & Hj & Hf & Hempty).
      unfold determine_winner.
      destruct (active_players g) as [|[i p] [|x rest]] eqn:Hact;
        [simpl in Hlen; lia | simpl in Hlen; lia |].
      rewrite <- Hact.
      rewrite (showdown_empty_hand _ _ _ j pj); [done | | done].
      apply not_folded_true in Hf.
      apply (seats_where_elem _ 0%nat _ _ _ Hj Hf).
  - intros i p Hact.
    destruct (determine_winner_single g i p Hact) as (Hd & Hi & Hf).
    split; [done|]. by apply award_lookup.
Qed.

(** ** The sweep and the completion test *)



(** A decision is taken exactly when [round_had_action] is set. *)
Lemma loop_body_action pol i r :
  let r' := (loop_body pol i r).1 in
  (decisions r ≤ decisions r')%nat
  ∧ round_had_action r'
    = round_had_action r || bool_decide (decisions r < decisions r')%nat.
Proof.
  assert (Hsame : (decisions r ≤ decisions r)%nat
    ∧ round_had_action r
      = round_had_action r || bool_decide (decisions r < decisions r)%nat).
  { split; [lia|]. rewrite bool_decide_eq_false_2 by lia. by rewrite orb_false_r. }
  unfold loop_body.
  destruct (players (game r) !! i) as [p|]; [|done].
  destruct (has_folded p || is_all_in p); [done|].
  destruct (needs_to_act r i p); simpl; [|done].
  destruct (bool_decide _ && _); simpl; [done|].
  unfold take_action. destruct (pol _ _ _ _ _) as [d|e]; simpl; [|done].
  assert (Hact : decisions (process_decision d i p r) = S (decisions r)
                 ∧ round_had_action (process_decision d i p r) = true).
  { unfold process_decision. destruct d as [[| |] amount].
    - done.
    - destruct (0 <? amount); [|done]. by destruct (place_bet p amount).
    - by destruct (place_bet p amount). }
  destruct Hact as [-> ->]. split; [lia|].
  rewrite bool_decide_eq_true_2 by lia. by rewrite orb_true_r.
Qed.

Lemma sweep_action pol seats r :
  let r' := (sweep pol seats r).1 in
  (decisions r ≤ decisions r')%nat
  ∧ round_had_action r'
    = round_had_action r || bool_decide (decisions r < decisions r')%nat.
Proof.
  revert r. induction seats as [|i seats IH]; intros r; simpl.
  - split; [lia|]. rewrite bool_decide_eq_false_2 by lia. by rewrite orb_false_r.
  - pose proof (loop_body_action pol i r) as [Hle Hact].
    destruct (loop_body pol i r) as [r1 [| |e]]; simpl in *; [done| |done].
    destruct (IH r1) as [Hle' Hact']. split; [lia|].
    rewrite Hact', Hact.
    destruct (round_had_action r); simpl; [done|].
    repeat case_bool_decide; try done; lia.
Qed.

Lemma settled_true table_bet p :
  settled table_bet p = true
  ↔ has_folded p = true ∨ is_all_in p = true ∨ player.current_bet p = table_bet.
Proof.
  unfold settled. rewrite !orb_true_iff, Z.eqb_eq. tauto.
Qed.

(** What lines 149-159 compute after a full sweep that neither returned
    nor raised: the value of [betting_complete] is true exactly when at
    most one player is neither folded nor all-in, or no decision was taken
    during the sweep, or every player is folded, all-in or has matched the
    table bet; otherwise another full sweep follows. *)
Lemma betting_complete_cases (pol : Policy) (fuel : nat) (r r' : RoundState) :
  sweep pol (seq 0 (length (players (game r)))) (begin_sweep r)
  = (r', Continues) →
  (betting_complete r' = true
   ↔ (count_in_round (players (game r')) ≤ 1)%nat
     ∨ decisions r' = decisions r
     ∨ ∀ p, p ∈ players (game r') →
         has_folded p = true ∨ is_all_in p = true
         ∨ player.current_bet p = current_bet (game r'))
  ∧ while_loop pol (S fuel) r
    = if betting_complete r' then Finished Complete r'
      else while_loop pol fuel r'.
Proof.
  intros Hsweep. split.
  - pose proof (sweep_action pol (seq 0 (length (players (game r)))) (begin_sweep r))
      as [Hle Hact].
    rewrite Hsweep in Hle, Hact. simpl in Hle, Hact.
    unfold betting_complete.
    destruct (Nat.leb_spec (count_in_round (players (game r'))) 1) as [Hc|Hc].
    { split; auto. }
    rewrite Hact.
    case_bool_decide as Hdec; simpl.
    + rewrite forallb_forall.
      setoid_rewrite settled_true. setoid_rewrite <- list_elem_of_In.
      split; [auto|]. intros [?|[?|?]]; [lia|lia|done].
    + split; [intros _|done]. right. left. lia.
  - simpl. by rewrite Hsweep.
Qed.

(** C4: the code ends a round that the claim keeps open. Alice (1000
    chips) raises to 50 and Bob (100 chips) answers with an all-in raise to
    100. The sweep returned nothing and saw two decisions, and Alice,
    neither folded nor all-in, has 50 in front of her against a table bet
    of 100: neither (i) nor (ii) holds, and the comments of lines 85 and
    98-99 have her act again. Lines 149-151 declare the round complete all
    the same, because she is the only player left who could bet, and
    [betting_round] returns with her bet unmatched. *)
Theorem unmatched_bet_ends_round :
  let r0 := enter_round big_and_short_stack in
  let r' := (sweep raise_then_shove (seq 0 2) (begin_sweep r0)).1 in
  (sweep raise_then_shove (seq 0 2) (begin_sweep r0)).2 = Continues
  ∧ round_had_action r' = true
  ∧ decisions r' = 2%nat
  ∧ current_bet (game r') = 100
  ∧ map player.current_bet (players (game r')) = [50; 100]
  ∧ map in_round (players (game r')) = [true; false]
  ∧ forallb (settled (current_bet (game r'))) (players (game r')) = false
  ∧ spec_round_complete r' = false
  ∧ betting_complete r' = true
  ∧ betting_round raise_then_shove 1 big_and_short_stack = Finished Complete r'.
Proof. vm_compute. repeat split; reflexivity. Qed.

(** ** The fold-out shortcut *)

Lemma seats_where_insert_length f k ps i p' :
  (length (seats_where f k ps) ≤ S (length (seats_where f k (<[i := p']> ps))))%nat.
Proof.
  revert k i. induction ps as [|q ps IH]; intros k i; simpl; [lia|].
  destruct i as [|i]; simpl.
  - destruct (f q), (f p'); simpl; lia.
  - specialize (IH (S k) i). destruct (f q); simpl; lia.
Qed.


Lemma process_decision_count d i p r :
  (count_not_folded (players (game r))
   ≤ S (count_not_folded (players (game (process_decision d i p r)))))%nat.
Proof.
  unfold process_decision, count_not_folded.
  destruct d as [[| |] amount]; simpl.
  - apply seats_where_insert_length.
  - destruct (0 <? amount); [|simpl; lia].
    destruct (place_bet p amount). simpl. apply seats_where_insert_length.
  - destruct (place_bet p amount). simpl. apply seats_where_insert_length.
Qed.

(** While the round goes on, at least two players have not folded; when an
    iteration returns, exactly one is left. *)
Lemma loop_body_count pol i r :
  (2 ≤ count_not_folded (players (game r)))%nat →
  let '(r', flow) := loop_body pol i r in
  match flow with
  | Returns => count_not_folded (players (game r')) = 1%nat
  | Continues | Raises _ => (2 ≤ count_not_folded (players (game r')))%nat
  end.
Proof.
  intros Htwo. unfold loop_body.
  destruct (players (game r) !! i) as [p|]; [|done].
  destruct (has_folded p || is_all_in p); [done|].
  destruct (needs_to_act r i p); simpl.
  - destruct (bool_decide _ && _); simpl; [done|].
    unfold take_action. destruct (pol _ _ _ _ _) as [d|e]; [|done].
    pose proof (process_decision_count d i p r).
    destruct (Nat.leb_spec
                (count_not_folded (players (game (process_decision d i p r)))) 1);
      lia.
  - destruct (Nat.leb_spec (count_not_folded (players (game r))) 1); lia.
Qed.

Lemma sweep_count pol seats r :
  (2 ≤ count_not_folded (players (game r)))%nat →
  let '(r', flow) := sweep pol seats r in
  match flow with
  | Returns => count_not_folded (players (game r')) = 1%nat
  | Continues | Raises _ => (2 ≤ count_not_folded (players (game r')))%nat
  end.
Proof.
  revert r. induction seats as [|i seats IH]; intros r Htwo; simpl; [done|].
  pose proof (loop_body_count pol i r Htwo) as H.
  destruct (loop_body pol i r) as [r1 [| |e]]; [done| |done]. by apply IH.
Qed.



(** ** The hand-strength heuristic *)

Lemma insert_desc_perm x xs : py.insert_desc x xs ≡ₚ x :: xs.
Proof.
  induction xs as [|y ys IH]; simpl; [done|].
  destruct (y <=? x); [done|]. rewrite IH. apply Permutation_swap.
Qed.

Lemma sort_reverse_perm xs : py.sort_reverse xs ≡ₚ xs.
Proof.
  induction xs as [|x xs IH]; simpl; [done|].
  unfold py.sort_reverse in *. simpl. by rewrite insert_desc_perm, IH.
Qed.

Lemma insert_desc_descending x xs :
  descending xs → descending (py.insert_desc x xs).
Proof.
  unfold descending. induction 1 as [|y ys Hs IH Hall]; simpl.
  - repeat constructor.
  - destruct (Z.leb_spec y x).
    + constructor; [by constructor|]. constructor; [done|].
      eapply Forall_impl; [exact Hall|]. simpl. intros; lia.
    + constructor; [done|].
      rewrite insert_desc_perm. constructor; [lia | done].
Qed.

Lemma sort_reverse_descending xs : descending (py.sort_reverse xs).
Proof.
  induction xs as [|x xs IH]; simpl; [constructor|].
  by apply insert_desc_descending.
Qed.

Lemma top_value_perm xs ys : xs ≡ₚ ys → top_value xs = top_value ys.
Proof.
  unfold top_value. induction 1; simpl; lia.
Qed.

Lemma top_value_descending v vs :
  0 ≤ v → descending (v :: vs) → top_value (v :: vs) = v.
Proof.
  intros Hv Hs. apply StronglySorted_inv in Hs as [_ Hall].
  unfold top_value. simpl.
  assert (foldr Z.max 0 vs ≤ v); [|lia].
  induction Hall as [|y ys Hy _ IH]; simpl; lia.
Qed.

Lemma top_two_equal_perm xs ys :
  xs ≡ₚ ys → top_two_equal xs = top_two_equal ys.
Proof.
  intros Hp. unfold top_two_equal. rewrite (top_value_perm _ _ Hp).
  by rewrite Hp.
Qed.

Lemma top_two_equal_descending v0 v1 vs :
  0 ≤ v0 → descending (v0 :: v1 :: vs) →
  top_two_equal (v0 :: v1 :: vs) = (v0 =? v1).
Proof.
  intros Hv Hs. unfold top_two_equal.
  rewrite (top_value_descending _ _ Hv Hs).
  apply StronglySorted_inv in Hs as [Hs Hall].
  apply StronglySorted_inv in Hs as [_ Hall1].
  apply Forall_cons in Hall as [H01 Hall].
  rewrite filter_cons_True by done. simpl.
  destruct (Z.eqb_spec v0 v1) as [->|Hne].
  - rewrite filter_cons_True by done. done.
  - rewrite filter_cons_False by congruence.
    replace (filter (λ v, v = v0) vs) with (@nil Z); [done|].
    symmetry. clear -Hall1 H01 Hne.
    induction Hall1 as [|y ys Hy _ IH]; [done|].
    rewrite filter_cons_False by lia. done.
Qed.

Lemma card_values_range (self : AIPlayer) :
  Forall (λ v, 0 ≤ v ≤ 12) (card_values self).
Proof. apply Forall_fmap, Forall_true. intros c. apply get_value_range. Qed.

Lemma truediv_rank v :
  0 ≤ v ≤ 12 →
  py.truediv v (Z.of_nat (length card.RANKS)) = py.Ok (float_quotient v 13).
Proof.
  intros Hv.
  assert (Hcases : v = 0 ∨ v = 1 ∨ v = 2 ∨ v = 3 ∨ v = 4 ∨ v = 5 ∨ v = 6
                   ∨ v = 7 ∨ v = 8 ∨ v = 9 ∨ v = 10 ∨ v = 11 ∨ v = 12) by lia.
  repeat destruct Hcases as [->|Hcases]; try subst v; by vm_compute.
Qed.

(** The sorted values start with the highest one; the first two are equal
    exactly when the highest occurs twice. *)
Lemma sort_reverse_top (self : AIPlayer) :
  (2 ≤ length (hand (base self)))%nat →
  ∃ v0 v1 rest,
    py.sort_reverse (card_values self) = v0 :: v1 :: rest
    ∧ v0 = top_value (card_values self)
    ∧ (v0 =? v1) = top_two_equal (card_values self)
    ∧ 0 ≤ v0 ≤ 12.
Proof.
  intros Hlen.
  pose proof (sort_reverse_perm (card_values self)) as Hperm.
  pose proof (sort_reverse_descending (card_values self)) as Hdesc.
  pose proof (card_values_range self) as Hrange.
  rewrite <- Hperm in Hrange.
  assert (Hl : length (py.sort_reverse (card_values self))
               = length (hand (base self))).
  { rewrite Hperm. unfold card_values. by rewrite length_map. }
  destruct (py.sort_reverse (card_values self)) as [|v0 [|v1 rest]];
    simpl in Hl; [lia | lia |].
  apply Forall_cons in Hrange as [Hv0 _].
  exists v0, v1, rest. split_and!; try lia; [done| |].
  - rewrite <- (top_value_perm _ _ Hperm).
    symmetry. apply top_value_descending; [lia | done].
  - rewrite <- (top_two_equal_perm _ _ Hperm).
    symmetry. apply top_two_equal_descending; [lia | done].
Qed.

Lemma hand_strength_cases (self : AIPlayer) :
  _evaluate_hand_strength self = py.Ok (hand_strength self).
Proof.
  unfold _evaluate_hand_strength, hand_strength.
  destruct (Nat.ltb_spec (length (hand (base self))) 2) as [|Hlen]; [done|].
  destruct (sort_reverse_top self Hlen) as (v0 & v1 & rest & Hsort & Htop & Heq & Hr).
  fold (card_values self). rewrite Hsort, Heq, <- Htop.
  rewrite (truediv_rank v0 Hr). by destruct (top_two_equal _).
Qed.

(** C8: the hand strength is exactly 0.5 for fewer than two cards;
    with two or more cards it is [0.7 + (top/13)*0.3] when the two highest
    card values are equal and [0.3 + (top/13)*0.4] otherwise, [top] being
    the highest card value, between 0 and 12, and the arithmetic being
    that of doubles. A pair of aces gives [0.7 + (12/13)*0.3];
    ace-king gives [0.3 + (12/13)*0.4]. *)
Theorem hand_strength_spec (self : AIPlayer) :
  let top := top_value (card_values self) in
  ((length (hand (base self)) < 2)%nat →
   _evaluate_hand_strength self = py.Ok 0.5%float)
  ∧ ((2 ≤ length (hand (base self)))%nat →
     0 ≤ top ≤ 12
     ∧ (top_two_equal (card_values self) = true →
        _evaluate_hand_strength self
        = py.Ok (0.7 + float_quotient top 13 * 0.3)%float)
     ∧ (top_two_equal (card_values self) = false →
        _evaluate_hand_strength self
        = py.Ok (0.3 + float_quotient top 13 * 0.4)%float))
  ∧ (hand (base self) = pair_of_aces →
     _evaluate_hand_strength self = py.Ok (0.7 + (12 / 13) * 0.3)%float)
  ∧ (hand (base self) = ace_king →
     _evaluate_hand_strength self = py.Ok (0.3 + (12 / 13) * 0.4)%float).
Proof.
  intros top. rewrite hand_strength_cases. unfold hand_strength. split_and!.
  - intros Hlen. by apply Nat.ltb_lt in Hlen as ->.
  - intros Hlen. split; [|split].
    + destruct (sort_reverse_top self Hlen) as (v0 & _ & _ & _ & Htop & _ & Hr).
      unfold top. rewrite <- Htop. exact Hr.
    + intros ->. by apply Nat.ltb_ge in Hlen as ->.
    + intros ->. by apply Nat.ltb_ge in Hlen as ->.
  - unfold card_values. intros ->. by vm_compute.
  - unfold card_values. intros ->. by vm_compute.
Qed.

Lemma hand_strength_spec_witness :
  let self := with_hand (AIPlayer_init "Alice" 1000 0.5) pair_of_aces in
  _evaluate_hand_strength self = py.Ok (0.7 + (12 / 13) * 0.3)%float.
Proof.
  intros self.
  refine (proj1 (proj2 (proj2 (hand_strength_spec self))) _).
  by vm_compute.
Defined.

(** ** The automated decision *)

Lemma make_decision_unfold (self : AIPlayer) (table_bet minimum_bet : Z) :
  make_decision self table_bet minimum_bet
  = (let ca := call_amount (base self) table_bet in
     let h := hand_strength self in
     bet_ratio ← py.truediv ca (Z.max (chips (base self)) 1);
     if (h <? 0.2 + bet_ratio * 0.3)%float && (0 <? ca) then py.Ok (Fold, 0)
     else if (0.6 + (0.4 - aggression self * 0.4) <? h)%float
             && (ca + minimum_bet <? chips (base self)) then
       m ← py.float_of_int minimum_bet;
       n ← py.int_of_float (m * (1 + aggression self * h * 3))%float;
       py.Ok (Raise, ca + Z.max (Z.min n (chips (base self) - ca)) minimum_bet)
     else py.Ok (Call, ca)).
Proof.
  unfold make_decision. rewrite hand_strength_cases. reflexivity.
Qed.

(** Both policies only produce the amounts [policy_amount] allows. *)
Lemma make_decision_conforms (self : AIPlayer) (table_bet minimum_bet : Z) d :
  make_decision self table_bet minimum_bet = py.Ok d →
  policy_amount table_bet minimum_bet (base self) d.
Proof.
  rewrite make_decision_unfold. cbv zeta.
  destruct (py.truediv _ _) as [ratio|]; simpl; [|done].
  destruct (_ && _); [by intros [= <-]|].
  destruct (_ <? hand_strength self)%float; simpl; [|by intros [= <-]].
  destruct (Z.ltb_spec (call_amount (base self) table_bet + minimum_bet)
              (chips (base self))) as [Hlt|]; [|by intros [= <-]].
  destruct (py.float_of_int minimum_bet) as [m|]; simpl; [|done].
  destruct (py.int_of_float _) as [n|]; simpl; [|done].
  intros [= <-]. simpl. eexists. split; [reflexivity | lia].
Qed.

(** The automated players form a policy of the kind the engine results
    are stated for, whatever their aggression. *)
Lemma ai_policy_conforms (aggr : nat → float) : policy_conforms (ai_policy aggr).
Proof.
  intros n i p table_bet minimum_bet d Hd.
  by apply make_decision_conforms in Hd.
Qed.

Lemma HumanPlayer_prompt_conforms (self : Player) (table_bet minimum_bet : Z)
    action typed d :
  HumanPlayer_prompt self table_bet minimum_bet action typed = Some d →
  policy_amount table_bet minimum_bet self d.
Proof.
  unfold HumanPlayer_prompt. fold (call_amount self table_bet).
  destruct (String.eqb action "f"); [by intros [= <-]|].
  destruct (String.eqb action "c"); [by intros [= <-]|].
  destruct (String.eqb action "r"); [|done].
  destruct (Z.leb_spec (chips self) (call_amount self table_bet)); [done|].
  destruct typed as [raise_amount|]; [|done].
  destruct (Z.ltb_spec raise_amount minimum_bet); [done|].
  destruct (Z.ltb_spec (chips self - call_amount self table_bet) raise_amount);
    [done|].
  intros [= <-]. simpl. exists raise_amount. split; [done | lia].
Qed.

(** C7 as stated fails: the default AI player holding a pair of aces,
    with 1000 chips, nothing to call and a minimum bet of 10, computes
    [10 * (1 + 0.5 * 0.9769... * 3) = 24.65...]; the source truncates it
    with [int] and raises 24, where rounding gives 25. *)
Lemma raise_rounding_counterexample :
  _evaluate_hand_strength alice_with_aces = py.Ok (0.7 + (12 / 13) * 0.3)%float
  ∧ (0.6 + (0.4 - aggression alice_with_aces * 0.4)
     <? 0.7 + (12 / 13) * 0.3)%float = true
  ∧ call_amount (base alice_with_aces) 0 + 10 < chips (base alice_with_aces)
  ∧ make_decision alice_with_aces 0 10 = py.Ok (Raise, 24)
  ∧ spec_raise alice_with_aces 0 10 = py.Ok (Raise, 25)
  ∧ make_decision alice_with_aces 0 10 ≠ spec_raise alice_with_aces 0 10.
Proof. vm_compute. split_and!; done. Qed.

(** C7 (amended): when the fold test does not fire, the hand strength
    exceeds the raise threshold and the chips exceed
    [call_amount + minimum_bet], [make_decision] returns a raise of
    [call_amount + raise_amount] with
    [raise_amount = max(min(int(minimum_bet * (1 + aggression *
    hand_strength * 3)), chips - call_amount), minimum_bet)], where [int]
    truncates toward zero; the raise amount lies between the minimum bet
    and [chips - call_amount]. ([bet_ratio], [m] and [n] name the values
    of the division, of the conversion of [minimum_bet] to a float and of
    [int], each of which raises instead when its result is no finite
    double.) *)
Theorem make_decision_raise (self : AIPlayer) (table_bet minimum_bet : Z)
    (bet_ratio m : float) (n : Z) :
  let ca := call_amount (base self) table_bet in
  let h := hand_strength self in
  py.truediv ca (Z.max (chips (base self)) 1) = py.Ok bet_ratio →
  ((h <? 0.2 + bet_ratio * 0.3)%float && (0 <? ca)) = false →
  (0.6 + (0.4 - aggression self * 0.4) <? h)%float = true →
  ca + minimum_bet < chips (base self) →
  py.float_of_int minimum_bet = py.Ok m →
  py.int_of_float (m * (1 + aggression self * h * 3))%float = py.Ok n →
  let raise_amount := Z.max (Z.min n (chips (base self) - ca)) minimum_bet in
  _evaluate_hand_strength self = py.Ok h
  ∧ make_decision self table_bet minimum_bet = py.Ok (Raise, ca + raise_amount)
  ∧ minimum_bet ≤ raise_amount ≤ chips (base self) - ca.
Proof.
  intros ca h Hratio Hfold Hraise Hchips Hm Hn raise_amount.
  split; [apply hand_strength_cases|]. split; [|unfold raise_amount; lia].
  rewrite make_decision_unfold. cbv zeta. fold ca h.
  rewrite Hratio. simpl. rewrite Hfold, Hraise.
  apply Z.ltb_lt in Hchips as ->. simpl. rewrite Hm. simpl. by rewrite Hn.
Qed.

Lemma make_decision_raise_witness :
  make_decision alice_with_aces 0 10 = py.Ok (Raise, 24).
Proof.
  refine (proj1 (proj2 (make_decision_raise alice_with_aces 0 10 0 10 24
                          _ _ _ _ _ _))); by vm_compute.
Defined.

(** C9 as stated fails: holding a pair of aces with 50 chips and 100 to
    call, the AI player answers [('call', 100)], which asks for twice its
    chips. *)
Lemma short_stack_counterexample :
  chips (base short_stack_with_aces) = 50
  ∧ call_amount (base short_stack_with_aces) 100 = 100
  ∧ make_decision short_stack_with_aces 100 10 = py.Ok (Call, 100)
  ∧ ¬ (100 ≤ chips (base short_stack_with_aces)).
Proof. vm_compute. split_and!; done. Qed.

(** C9 (amended): with 50 chips, 100 to call and a non-negative minimum
    bet, [make_decision] never raises; it answers a fold, or a call for
    the whole call amount of 100. The amount is cut down to the 50
    available chips only by [place_bet], which then commits exactly 50,
    empties the stack and sets the all-in flag. *)
Theorem short_stack_decision (self : AIPlayer) (table_bet minimum_bet : Z) :
  chips (base self) = 50 →
  call_amount (base self) table_bet = 100 →
  0 ≤ minimum_bet →
  (make_decision self table_bet minimum_bet = py.Ok (Fold, 0)
   ∨ make_decision self table_bet minimum_bet = py.Ok (Call, 100))
  ∧ (place_bet (base self) 100).2 = 50
  ∧ chips (place_bet (base self) 100).1 = 0
  ∧ is_all_in (place_bet (base self) 100).1 = true.
Proof.
  intros Hchips Hca Hmin. split.
  - rewrite make_decision_unfold. cbv zeta. rewrite Hca, Hchips.
    replace (py.truediv 100 (Z.max 50 1)) with (py.Ok 2%float) by by vm_compute.
    simpl.
    destruct (_ && _); [by left|].
    replace (100 + minimum_bet <? 50) with false
      by (symmetry; apply Z.ltb_ge; lia).
    rewrite andb_false_r. by right.
  - unfold place_bet. rewrite Hchips. done.
Qed.

Lemma short_stack_decision_witness :
  make_decision short_stack_with_aces 100 10 = py.Ok (Fold, 0)
  ∨ make_decision short_stack_with_aces 100 10 = py.Ok (Call, 100).
Proof.
  refine (proj1 (short_stack_decision short_stack_with_aces 100 10 _ _ _));
    by vm_compute.
Defined.

(** ** Concrete runs *)

(** The end-to-end scenario: Alice raises to 50, Bob and Charlie call;
    the round completes after that one sweep with 150 in the pot. *)
Example raise_and_two_calls :
  ∃ r, betting_round raise_then_call 1 three_players = Finished Complete r
       ∧ pot (game r) = 150 ∧ current_bet (game r) = 50
       ∧ map player.current_bet (players (game r)) = [50; 50; 50]
       ∧ map chips (players (game r)) = [950; 950; 950]
       ∧ map has_folded (players (game r)) = [false; false; false].
Proof. eexists. vm_compute. split_and!; reflexivity. Qed.

(** Equal top cards: the earlier seat takes the whole pot. *)
Example showdown_tie_break :
  determine_winner two_aces_showdown = py.Ok (award two_aces_showdown 0)
  ∧ map chips (players (award two_aces_showdown 0)) = [1200; 900; 900].
Proof. by vm_compute. Qed.

Example ace_king_strength :
  _evaluate_hand_strength (with_hand (AIPlayer_init "Alice" 1000 0.5) ace_king)
  = py.Ok (0.3 + (12 / 13) * 0.4)%float.
Proof. by vm_compute. Qed.

(** An exception of [make_decision] ends the round and the hand: Alice
    raises to 50, then [input] finds the console closed. The 50 chips are
    in the pot when the [EOFError] leaves [betting_round], and [play_hand]
    ends with it. *)
Example closed_console_ends_hand :
  (∃ r, betting_round console_closes 5 three_players = Raised py.EOFError r
        ∧ pot (game r) = 50 ∧ decisions r = 1%nat
        ∧ map chips (players (game r)) = [950; 1000; 1000])
  ∧ play_hand console_closes 5 reverse three_players []
    = Some (py.Exn py.EOFError).
Proof. split; [eexists|]; vm_compute; split_and?; reflexivity. Qed.

(** The automated player facing a bet too large for a float: the division
    of line 142 raises [OverflowError]. *)
Example overflow_in_make_decision :
  ai_policy (λ _, 0.5%float) 0%nat 0%nat (init "Bob" 1000) (10 ^ 399) 10
  = py.Exn py.OverflowError.
Proof. by vm_compute. Qed.

Lemma minimum_raiser_conforms : policy_conforms minimum_raiser.
Proof.
  intros n i p table_bet minimum_bet d. unfold minimum_raiser. cbv zeta.
  intros [= <-].
  destruct (Z.ltb_spec (call_amount p table_bet + minimum_bet) (chips p)); simpl.
  - exists minimum_bet. split; [done | lia].
  - done.
Qed.

Lemma chips_conserved_witness :
  let g' := game (state_of (betting_round raise_then_shove 3 big_and_short_stack)) in
  total_stake g' = total_stake big_and_short_stack
  ∧ pot g' - pot big_and_short_stack
    = total_bets g' - total_bets big_and_short_stack
  ∧ pot g' - pot big_and_short_stack
    = total_chips big_and_short_stack - total_chips g'
  ∧ Forall (λ q, 0 ≤ chips q) (players g').
Proof.
  refine (proj2 (chips_conserved raise_then_shove 3 big_and_short_stack
                   (init "Ann" 50) 100 _ _ _)).
  - by vm_compute.
  - by vm_compute.
  - repeat constructor; by vm_compute.
Defined.

Lemma betting_round_terminates_witness :
  ∃ how r, betting_round minimum_raiser 126 small_stacks = Finished how r.
Proof.
  refine (proj2 (betting_round_terminates minimum_raiser small_stacks 126
                   minimum_raiser_conforms _ _ _ _) _).
  - repeat constructor; by vm_compute.
  - repeat constructor; by vm_compute.
  - by vm_compute.
  - vm_compute. lia.
  - by intros n i p table_bet minimum_bet e.
Defined.


Lemma determine_winner_spec_witness :
  ∃ w pw,
    players two_aces_showdown !! w = Some pw ∧ has_folded pw = false
    ∧ determine_winner two_aces_showdown = py.Ok (award two_aces_showdown w)
    ∧ ((2 ≤ length (active_players two_aces_showdown))%nat →
       ∀ j pj, players two_aces_showdown !! j = Some pj →
         has_folded pj = false →
         top_card pj ≤ top_card pw ∧ ((j < w)%nat → top_card pj < top_card pw))
    ∧ players (award two_aces_showdown w) !! w
      = Some (paid pw (pot two_aces_showdown))
    ∧ chips (paid pw (pot two_aces_showdown)) = chips pw + pot two_aces_showdown
    ∧ (∀ j, j ≠ w →
         players (award two_aces_showdown w) !! j = players two_aces_showdown !! j).
Proof.
  refine (determine_winner_spec two_aces_showdown _ _).
  - vm_compute. lia.
  - intros _ j pj. destruct j as [|[|[|j]]]; simpl; intros [= <-] Hf; done.
Defined.

Lemma determine_winner_needs_cards_witness :
  determine_winner last_player_without_cards
  = py.Ok (award last_player_without_cards 1)
  ∧ players (award last_player_without_cards 1) !! 1%nat
    = Some (paid (init "Bob" 900) (pot last_player_without_cards)).
Proof.
  refine (proj2 (determine_winner_needs_cards last_player_without_cards)
            1%nat (init "Bob" 900) _).
  by vm_compute.
Defined.

(** * Further properties of the source *)

(** ** AIPlayer.__init__ *)

Lemma SFltb_SFleb x y : SFltb x y = true → SFleb x y = true.
Proof. unfold SFltb, SFleb. by destruct (SFcompare x y) as [[]|]. Qed.

Lemma SFleb_not_SFltb x y :
  SFleb x y = true → SFltb x y = false → SFcompare x y = Some Eq.
Proof. unfold SFltb, SFleb. by destruct (SFcompare x y) as [[]|]. Qed.

Lemma SFcompare_Eq_sym x y :
  SFcompare x y = Some Eq → SFcompare y x = Some Eq.
Proof.
  destruct x as [sx|sx| |sx mx ex], y as [sy|sy| |sy my ey]; simpl; try done;
    try (by destruct sx); try (by destruct sy); try (by destruct sx, sy).
  destruct sx, sy; try done; intros [= H];
    destruct (Z.compare_spec ex ey) as [->| |]; try done;
    rewrite Z.compare_refl; f_equal.
  - destruct (Pos.compare_cont Eq mx my) eqn:Hm; try done.
    apply Pos.compare_eq in Hm as ->. by rewrite Pos.compare_cont_refl.
  - apply Pos.compare_eq in H as ->. by rewrite Pos.compare_cont_refl.
Qed.

Lemma float_ltb_leb (x y : float) : (x <? y)%float = true → (x <=? y)%float = true.
Proof. rewrite FloatAxioms.ltb_spec, FloatAxioms.leb_spec. apply SFltb_SFleb. Qed.

Lemma float_leb_eqb (x y : float) :
  (x <=? y)%float = true → (x <? y)%float = false →
  (x =? y)%float = true ∧ (y =? x)%float = true.
Proof.
  rewrite FloatAxioms.ltb_spec, FloatAxioms.leb_spec, !FloatAxioms.eqb_spec. intros Hle Hlt.
  pose proof (SFleb_not_SFltb _ _ Hle Hlt) as Heq.
  unfold SFeqb. by rewrite (SFcompare_Eq_sym _ _ Heq), Heq.
Qed.

Lemma float_ltb_eqb_refl (x y : float) :
  (x <? y)%float = true → (y =? y)%float = true.
Proof.
  rewrite FloatAxioms.ltb_spec, FloatAxioms.eqb_spec. unfold SFltb, SFeqb.
  destruct (Prim2SF x) as [sx|sx| |sx mx ex], (Prim2SF y) as [sy|sy| |sy my ey];
    simpl; try done; try (by destruct sy).
  - intros _. destruct sy; by rewrite Z.compare_refl, Pos.compare_cont_refl.
  - intros _. destruct sy; by rewrite Z.compare_refl, Pos.compare_cont_refl.
  - intros _. destruct sy; by rewrite Z.compare_refl, Pos.compare_cont_refl.
Qed.

(** X1: whatever float the constructor receives (infinities and NaN
    included), the stored aggression lies between 0 and 1, and an
    aggression that already lies there is kept (as a number: [-0.0]
    becomes [0.0]). *)
Theorem aggression_clamped (name : string) (chips : Z) (a : float) :
  let self := AIPlayer_init name chips a in
  (0 <=? aggression self)%float = true
  ∧ (aggression self <=? 1)%float = true
  ∧ ((0 <=? a)%float = true → (a <=? 1)%float = true →
     (aggression self =? a)%float = true).
Proof.
  simpl. unfold py.fmax, py.fmin.
  destruct (a <? 1)%float eqn:Hlt1.
  - destruct (0 <? a)%float eqn:Hlt0.
    + split_and!; [by apply float_ltb_leb | by apply float_ltb_leb |].
      intros _ _. by apply (float_ltb_eqb_refl 0).
    + split_and!; [done | done |].
      intros Hle0 _. by destruct (float_leb_eqb 0 a Hle0 Hlt0).
  - change (0 <? 1)%float with true. cbv iota.
    split_and!; [done | done |].
    intros _ Hle1. by destruct (float_leb_eqb a 1 Hle1 Hlt1).
Qed.

Lemma aggression_clamped_witness :
  (aggression (AIPlayer_init "Eve" 1000 0.8) =? 0.8)%float = true.
Proof.
  refine (proj2 (proj2 (aggression_clamped "Eve" 1000 0.8)) _ _); by vm_compute.
Defined.

(** ** Player.place_bet, twice *)

(** X2: two bets in a row leave the player as one bet of the sum does,
    and commit the same total (the second amount not being negative). *)
Theorem place_bet_twice (p : Player) (a b : Z) :
  0 ≤ b →
  (place_bet (place_bet p a).1 b).1 = (place_bet p (a + b)).1
  ∧ (place_bet p a).2 + (place_bet (place_bet p a).1 b).2
    = (place_bet p (a + b)).2.
Proof.
  intros Hb. unfold place_bet.
  destruct (Z.leb_spec (chips p) a) as [Ha|Ha]; simpl.
  - replace (0 <=? b) with true by (symmetry; apply Z.leb_le; lia).
    replace (chips p <=? a + b) with true by (symmetry; apply Z.leb_le; lia).
    simpl. split; [f_equal|]; lia.
  - destruct (Z.leb_spec (chips p - a) b) as [Hab|Hab]; simpl.
    + replace (chips p <=? a + b) with true by (symmetry; apply Z.leb_le; lia).
      simpl. split; [f_equal|]; lia.
    + replace (chips p <=? a + b) with false by (symmetry; apply Z.leb_gt; lia).
      simpl. split; [f_equal|]; lia.
Qed.

Lemma place_bet_twice_witness :
  (place_bet (place_bet (init "Ann" 100) 60).1 70).1
  = (place_bet (init "Ann" 100) (60 + 70)).1.
Proof. refine (proj1 (place_bet_twice (init "Ann" 100) 60 70 _)). by vm_compute. Defined.

(** ** AIPlayer.make_decision *)

(** X3: every decision of the AI player is a fold with amount 0, taken
    only when there is something to call; or a call for exactly the call
    amount; or a raise of [call_amount + raise_amount] with
    [minimum_bet <= raise_amount <= chips - call_amount], taken only with
    more chips than [call_amount + minimum_bet], so that a raise never
    asks for more than the stack. *)
Theorem ai_decision_contract (self : AIPlayer) (table_bet minimum_bet : Z)
    (d : Decision) :
  make_decision self table_bet minimum_bet = py.Ok d →
  let ca := call_amount (base self) table_bet in
  match d with
  | (Fold, amount) => amount = 0 ∧ 0 < ca
  | (Call, amount) => amount = ca
  | (Raise, amount) =>
      ca + minimum_bet < chips (base self) ∧ amount ≤ chips (base self)
      ∧ ∃ raise_amount,
          amount = ca + raise_amount
          ∧ minimum_bet ≤ raise_amount ≤ chips (base self) - ca
  end.
Proof.
  rewrite make_decision_unfold. cbv zeta.
  destruct (py.truediv _ _) as [ratio|]; simpl; [|done].
  destruct (_ <? _)%float; simpl.
  - destruct (Z.ltb_spec 0 (call_amount (base self) table_bet)); simpl.
    { by intros [= <-]. }
    destruct (_ <? hand_strength self)%float; simpl; [|by intros [= <-]].
    destruct (Z.ltb_spec (call_amount (base self) table_bet + minimum_bet)
                (chips (base self))) as [Hlt|]; [|by intros [= <-]].
    destruct (py.float_of_int minimum_bet) as [m|]; simpl; [|done].
    destruct (py.int_of_float _) as [n|]; simpl; [|done].
    intros [= <-]. split_and!; [done | lia |]. eexists. split; [reflexivity | lia].
  - destruct (_ <? hand_strength self)%float; simpl; [|by intros [= <-]].
    destruct (Z.ltb_spec (call_amount (base self) table_bet + minimum_bet)
                (chips (base self))) as [Hlt|]; [|by intros [= <-]].
    destruct (py.float_of_int minimum_bet) as [m|]; simpl; [|done].
    destruct (py.int_of_float _) as [n|]; simpl; [|done].
    intros [= <-]. split_and!; [done | lia |]. eexists. split; [reflexivity | lia].
Qed.

Lemma ai_decision_contract_witness :
  ∃ raise_amount, 24 = 0 + raise_amount ∧ 10 ≤ raise_amount ≤ 1000 - 0.
Proof.
  refine (proj2 (proj2 (ai_decision_contract alice_with_aces 0 10 (Raise, 24) _))).
  by vm_compute.
Defined.

(** ** HumanPlayer.make_decision *)

Section human.
Variable normalise : string → string.
Variable parse_int : string → option Z.

Lemma human_loop_suffix (self : Player) (table_bet minimum_bet : Z) console d rest :
  HumanPlayer_make_decision normalise parse_int self table_bet minimum_bet console
  = Decided d rest →
  policy_amount table_bet minimum_bet self d
  ∧ ∃ used, used ≠ [] ∧ console = used ++ rest.
Proof.
  remember (length console) as n eqn:Hn. revert console Hn.
  induction n as [n IH] using lt_wf_ind. intros console ->.
  destruct console as [|[line|] console]; simpl; [done| |].
  - destruct (String.eqb (normalise line) "r" && _).
    + destruct console as [|answer console]; [done|].
      destruct (HumanPlayer_prompt _ _ _ _ _) as [d'|] eqn:Hp.
      * intros [= <- <-]. split; [by eapply HumanPlayer_prompt_conforms|].
        by exists [Typed line; answer].
      * intros H. eapply IH in H as (Hd & used & _ & ->); [| |reflexivity];
          [|simpl; lia].
        split; [done|]. by exists (Typed line :: answer :: used).
    + destruct (HumanPlayer_prompt _ _ _ _ _) as [d'|] eqn:Hp.
      * intros [= <- <-]. split; [by eapply HumanPlayer_prompt_conforms|].
        by exists [Typed line].
      * intros H. eapply IH in H as (Hd & used & _ & ->); [| |reflexivity];
          [|simpl; lia].
        split; [done|]. by exists (Typed line :: used).
  - intros H. eapply IH in H as (Hd & used & _ & ->); [| |reflexivity];
      [|simpl; lia].
    split; [done|]. by exists (Interrupt :: used).
Qed.

(** X4: the prompt loop of the human player. A decision it returns has
    the amounts of the contract (a call for the call amount, a raise of
    [call_amount + raise_amount] with
    [minimum_bet <= raise_amount <= chips - call_amount]) and has consumed a
    non-empty prefix of the console. The interrupt key and a line that is
    none of f, c, r are skipped: neither ends the turn, neither counts as a
    fold. A raise typed by a player who cannot even call is refused before
    any amount is read. *)
Theorem human_loop_contract (self : Player) (table_bet minimum_bet : Z)
    (console : list ConsoleEvent) :
  let decide := HumanPlayer_make_decision normalise parse_int self
                  table_bet minimum_bet in
  (∀ d rest, decide console = Decided d rest →
     policy_amount table_bet minimum_bet self d
     ∧ ∃ used, used ≠ [] ∧ console = used ++ rest)
  ∧ decide (Interrupt :: console) = decide console
  ∧ (∀ line, normalise line ≠ "f" → normalise line ≠ "c" →
       normalise line ≠ "r" →
       decide (Typed line :: console) = decide console)
  ∧ (∀ line, normalise line = "r" →
       chips self ≤ call_amount self table_bet →
       decide (Typed line :: console) = decide console).
Proof.
  intros decide. split_and!.
  - intros d rest. apply human_loop_suffix.
  - done.
  - intros line Hf Hc Hr. unfold decide. simpl.
    apply String.eqb_neq in Hf, Hc, Hr. rewrite Hr. simpl.
    unfold HumanPlayer_prompt. by rewrite Hf, Hc, Hr.
  - intros line Hr Hchips. unfold decide. simpl.
    fold (call_amount self table_bet).
    apply Z.leb_le in Hchips. rewrite Hchips, andb_false_r.
    unfold HumanPlayer_prompt. fold (call_amount self table_bet).
    rewrite Hr, Hchips. done.
Qed.

(** The human players form a policy of the kind the engine results are
    stated for; its only exception is the [EOFError] of a closed console. *)
Lemma human_policy_conforms (console : nat → list ConsoleEvent) :
  policy_conforms (human_policy normalise parse_int console)
  ∧ ∀ e, raised_by (human_policy normalise parse_int console) e →
         e = py.EOFError.
Proof.
  split.
  - intros n i p table_bet minimum_bet d. unfold human_policy.
    destruct (HumanPlayer_make_decision _ _ _ _ _ _) as [d' rest|] eqn:Hd;
      [|done].
    intros [= <-]. by apply human_loop_suffix in Hd as [Hd _].
  - intros e (n & i & p & table_bet & minimum_bet & He). revert He.
    unfold human_policy.
    destruct (HumanPlayer_make_decision _ _ _ _ _ _); [done|].
    by intros [= <-].
Qed.

End human.

Lemma human_loop_contract_witness :
  HumanPlayer_make_decision id (λ _, None) (init "You" 1000) 50 10
    [Typed "x"; Typed "invalid"; Typed "f"]
  = HumanPlayer_make_decision id (λ _, None) (init "You" 1000) 50 10
      [Typed "invalid"; Typed "f"].
Proof.
  refine (proj1 (proj2 (proj2 (human_loop_contract id (λ _, None)
            (init "You" 1000) 50 10 [Typed "invalid"; Typed "f"]))) "x" _ _ _);
    by vm_compute.
Defined.

(** ** card.py *)

(** X5: [get_value] is the position of the rank in [RANKS]: it lies
    between 0 and 12, [RANKS] holds the card's rank at that position, and
    two cards have the same value exactly when they have the same rank. *)
Theorem get_value_position (c c' : card.Card) :
  0 ≤ card.get_value c ≤ 12
  ∧ card.RANKS !! Z.to_nat (card.get_value c) = Some (card.rank c)
  ∧ (card.get_value c = card.get_value c' ↔ card.rank c = card.rank c').
Proof.
  split; [apply get_value_range|]. split.
  - by destruct c as [[] ?].
  - split.
    + destruct c as [[] ?], c' as [[] ?]; by vm_compute.
    + unfold card.get_value. by intros ->.
Qed.

(** X6: the constructor accepts exactly the thirteen rank names and the
    four suit names: built from the names of a rank and a suit it gives
    that card; whenever it gives a card, the strings were that card's
    names; and any other rank or suit string is a [ValueError]. *)
Theorem Card_init_names (rank' suit' : string) :
  (∀ r s, card.Card_init (card.rank_str r) (card.suit_str s)
          = py.Ok {| card.rank := r; card.suit := s |})
  ∧ (∀ c, card.Card_init rank' suit' = py.Ok c →
          rank' = card.rank_str (card.rank c)
          ∧ suit' = card.suit_str (card.suit c))
  ∧ ((∀ r, card.rank_str r ≠ rank') ∨ (∀ s, card.suit_str s ≠ suit') →
     card.Card_init rank' suit' = py.Exn py.ValueError).
Proof.
  split_and!.
  - by intros [] [].
  - intros c. unfold card.Card_init.
    destruct (list_find _ card.RANKS) as [[i r]|] eqn:Hr; [|done].
    destruct (list_find _ card.SUITS) as [[j s]|] eqn:Hs; [|done].
    intros [= <-]. simpl.
    apply list_find_Some in Hr as (_ & Hr & _).
    apply list_find_Some in Hs as (_ & Hs & _). done.
  - intros Hbad. unfold card.Card_init.
    destruct (list_find _ card.RANKS) as [[i r]|] eqn:Hr.
    + apply list_find_Some in Hr as (_ & Hr & _).
      destruct (list_find _ card.SUITS) as [[j s]|] eqn:Hs; [|done].
      apply list_find_Some in Hs as (_ & Hs & _).
      destruct Hbad as [Hbad|Hbad]; [by destruct (Hbad r) | by destruct (Hbad s)].
    + done.
Qed.

Lemma Card_init_names_witness :
  card.Card_init "X" "Hearts" = py.Exn py.ValueError.
Proof.
  refine (proj2 (proj2 (Card_init_names "X" "Hearts")) _).
  left. by intros [].
Defined.

(** ** deck.py *)

Lemma pop_spec {A} (l : list A) :
  match deck.pop l with
  | None => l = []
  | Some (rest, x) => l = rest ++ [x]
  end.
Proof.
  induction l as [|y l IH]; simpl; [done|].
  destruct (deck.pop l) as [[rest x]|]; subst; done.
Qed.

(** X7: a reset deck, whatever it held before, has 52 cards, no card
    twice, and every card of the game. *)
Theorem reset_full_deck (d : deck.Deck) (c : card.Card) :
  deck.cards_remaining (deck.reset d) = 52%nat
  ∧ NoDup (deck.reset d)
  ∧ c ∈ deck.reset d.
Proof.
  split_and!.
  - done.
  - apply (bool_decide_unpack _). by vm_compute.
  - destruct c as [[] []]; apply (bool_decide_unpack _); by vm_compute.
Qed.

(** X8: [deal_card] raises [ValueError] exactly on the empty deck;
    otherwise it hands out the last card of the list and leaves the cards
    before it, one card fewer. *)
Theorem deal_card_top (d : deck.Deck) :
  (deck.deal_card d = py.Exn py.ValueError ↔ d = [])
  ∧ (∀ c d', deck.deal_card d = py.Ok (c, d') ↔ d = d' ++ [c])
  ∧ (∀ c d', deck.deal_card d = py.Ok (c, d') →
       S (deck.cards_remaining d') = deck.cards_remaining d).
Proof.
  unfold deck.deal_card. pose proof (pop_spec d) as H.
  destruct (deck.pop d) as [[rest x]|]; subst.
  - split_and!.
    + split; [done|]. intros Hnil. by destruct rest.
    + intros c d'. split.
      * by intros [= <- <-].
      * intros Heq. apply app_inj_tail in Heq as [-> ->]. done.
    + intros c d' [= <- <-]. unfold deck.cards_remaining.
      rewrite length_app. simpl. lia.
  - split_and!; [done | | done].
    intros c d'. split; [done|]. intros Heq. by destruct d'.
Qed.

Lemma deal_card_top_witness :
  S (deck.cards_remaining (removelast (deck.reset []))) = 52%nat.
Proof.
  refine (proj2 (proj2 (deal_card_top (deck.reset [])))
            {| card.rank := card.A; card.suit := card.Spades |}
            (removelast (deck.reset [])) _).
  by vm_compute.
Defined.

(** ** PokerGame.deal_cards *)

Lemma with_cards_hand p cs : hand (with_cards p cs) = hand p ++ cs.
Proof.
  revert p. induction cs as [|c cs IH]; intros p; simpl.
  - by rewrite app_nil_r.
  - unfold with_cards in *. simpl. rewrite IH. simpl. by rewrite <- app_assoc.
Qed.

Lemma with_cards_fields p cs :
  name (with_cards p cs) = name p ∧ chips (with_cards p cs) = chips p
  ∧ player.current_bet (with_cards p cs) = player.current_bet p
  ∧ has_folded (with_cards p cs) = has_folded p
  ∧ is_all_in (with_cards p cs) = is_all_in p.
Proof.
  revert p. induction cs as [|c cs IH]; intros p; [done|].
  unfold with_cards in *. simpl. by destruct (IH (add_card p c)) as (-> & -> & -> & -> & ->).
Qed.

Lemma with_cards_app p cs cs' :
  with_cards (with_cards p cs) cs' = with_cards p (cs ++ cs').
Proof. unfold with_cards. by rewrite foldl_app. Qed.

Lemma deal_pass_empty ps : deal_pass [] ps = py.Ok ([], ps).
Proof. induction ps as [|p ps IH]; simpl; [done|]. by rewrite IH. Qed.

Lemma deal_pass_spec d ps :
  ∃ d' ps',
    deal_pass d ps = py.Ok (d', ps')
    ∧ Forall2 (λ p p', p' = p ∨ ∃ c, p' = add_card p c) ps ps'
    ∧ d' ++ cards_in_hands ps' ≡ₚ d ++ cards_in_hands ps
    ∧ ((length ps ≤ length d)%nat →
       Forall2 (λ p p', ∃ c, p' = add_card p c) ps ps'
       ∧ length d' = (length d - length ps)%nat)
    ∧ ((length d ≤ length ps)%nat →
       d' = [] ∧ ∀ j, (length d ≤ j)%nat → ps' !! j = ps !! j).
Proof.
  revert d. induction ps as [|p ps IH]; intros d.
  - exists d, []. simpl. split_and!; auto.
    + split; [constructor | lia].
    + intros Hd. split; [|done]. destruct d; [done | simpl in Hd; lia].
  - simpl. unfold deck.cards_remaining, deck.deal_card.
    pose proof (pop_spec d) as Hpop.
    destruct (deck.pop d) as [[d0 c]|]; subst.
    + rewrite length_app. simpl.
      replace (0 <? length d0 + 1)%nat with true by (symmetry; apply Nat.ltb_lt; lia).
      simpl.
      destruct (IH d0) as (d' & ps' & -> & Hall & Hperm & Henough & Hshort).
      simpl. exists d', (add_card p c :: ps'). split_and!.
      * done.
      * constructor; [right; by exists c | done].
      * unfold cards_in_hands in *. simpl.
        rewrite <- !app_assoc.
        rewrite (Permutation_app_swap_app d' (hand p) _).
        rewrite (Permutation_app_swap_app d' [c] _).
        rewrite Hperm.
        rewrite (Permutation_app_swap_app d0 [c] _).
        rewrite (Permutation_app_swap_app d0 (hand p) _).
        apply Permutation_app_swap_app.
      * intros Hlen. destruct Henough as [Hall' Hd']; [lia|].
        split; [constructor; [by exists c | done] | lia].
      * intros Hlen. destruct Hshort as [-> Hsame]; [lia|].
        split; [done|]. intros [|j] Hj; [lia|]. simpl. apply Hsame. lia.
    + simpl. rewrite deal_pass_empty. simpl.
      exists [], (p :: ps). split_and!; auto.
      * apply Forall2_same_length_lookup_2; [done|]. intros i x y Hx Hy. left. congruence.
      * simpl. lia.
Qed.

Lemma deal_cards_empty n ps : deal_cards n [] ps = py.Ok ([], ps).
Proof.
  induction n as [|n IH]; simpl; [done|]. rewrite deal_pass_empty. simpl. apply IH.
Qed.

Lemma deal_cards_spec n d ps :
  ∃ d' ps',
    deal_cards n d ps = py.Ok (d', ps')
    ∧ Forall2 (λ p p', ∃ cs, p' = with_cards p cs ∧ (length cs ≤ n)%nat) ps ps'
    ∧ d' ++ cards_in_hands ps' ≡ₚ d ++ cards_in_hands ps
    ∧ ((n * length ps ≤ length d)%nat →
       Forall2 (λ p p', ∃ cs, p' = with_cards p cs ∧ length cs = n) ps ps'
       ∧ length d' = (length d - n * length ps)%nat)
    ∧ ((1 ≤ n)%nat → (length ps ≤ length d)%nat →
       Forall (λ p', hand p' ≠ []) ps')
    ∧ ((1 ≤ n)%nat → (length d ≤ length ps)%nat →
       d' = [] ∧ ∀ j, (length d ≤ j)%nat → ps' !! j = ps !! j).
Proof.
  revert d ps. induction n as [|n IH]; intros d ps.
  - exists d, ps. simpl. split_and!; auto; try lia.
    + apply Forall2_same_length_lookup_2; [done|]. intros i x y Hx Hy.
      exists []. split; [simpl; congruence | simpl; lia].
    + intros _. split; [|lia].
      apply Forall2_same_length_lookup_2; [done|]. intros i x y Hx Hy.
      exists []. split; [simpl; congruence | done].
  - simpl.
    destruct (deal_pass_spec d ps) as (d1 & ps1 & -> & Hall1 & Hperm1 & Henough1 & Hshort1).
    simpl.
    destruct (IH d1 ps1) as (d' & ps' & Hdeal & Hall & Hperm & Henough & Hcard & Hshort).
    rewrite Hdeal.
    pose proof (Forall2_length _ _ _ Hall1) as Hlen1.
    exists d', ps'. split_and!.
    + done.
    + apply Forall2_same_length_lookup_2.
      { rewrite Hlen1. by eapply Forall2_length. }
      intros i p p' Hp Hp'.
      destruct (Forall2_lookup_l _ _ _ _ _ Hall1 Hp) as (p1 & Hp1 & Hstep).
      destruct (Forall2_lookup_l _ _ _ _ _ Hall Hp1) as (p'' & Hp'' & cs & -> & Hcs).
      assert (p' = with_cards p1 cs) as -> by congruence.
      destruct Hstep as [->|[c ->]].
      * exists cs. split; [done | lia].
      * exists (c :: cs). split; [done | simpl; lia].
    + by rewrite Hperm.
    + intros Hlen. destruct Henough1 as [Hall1' Hd1]; [lia|].
      destruct Henough as [Hall' Hd']; [rewrite <- Hlen1, Hd1; lia|].
      split; [|rewrite Hd', Hd1, <- Hlen1; lia].
      apply Forall2_same_length_lookup_2.
      { rewrite Hlen1. by eapply Forall2_length. }
      intros i p p' Hp Hp'.
      destruct (Forall2_lookup_l _ _ _ _ _ Hall1' Hp) as (p1 & Hp1 & c & ->).
      destruct (Forall2_lookup_l _ _ _ _ _ Hall' Hp1) as (p'' & Hp'' & cs & -> & Hcs).
      assert (p' = with_cards (add_card p c) cs) as -> by congruence.
      exists (c :: cs). split; [done | simpl; lia].
    + intros _ Hlen. destruct Henough1 as [Hall1' _]; [lia|].
      apply Forall_lookup. intros i p' Hp'.
      destruct (Forall2_lookup_r _ _ _ _ _ Hall Hp') as (p1 & Hp1 & cs & -> & _).
      destruct (Forall2_lookup_r _ _ _ _ _ Hall1' Hp1) as (p & Hp & c & ->).
      rewrite with_cards_hand. simpl. by destruct (hand p).
    + intros _ Hlen. destruct Hshort1 as [-> Hsame1]; [done|].
      rewrite deal_cards_empty in Hdeal. by inversion Hdeal; subst.
Qed.

(** X9: [deal_cards] never raises, whatever the deck holds: it moves
    cards from the deck to the hands and nothing else. The cards of the
    deck and the hands together are the same before and after (so no card
    is dealt twice from a deck without duplicates), and a player only gains
    at most [cards_per_player] cards at the end of the hand: name, chips,
    bet and flags are untouched. *)
Theorem deal_cards_moves_cards (n : nat) (d : deck.Deck) (ps : list Player) :
  ∃ d' ps',
    deal_cards n d ps = py.Ok (d', ps')
    ∧ d' ++ cards_in_hands ps' ≡ₚ d ++ cards_in_hands ps
    ∧ (NoDup (d ++ cards_in_hands ps) → NoDup (d' ++ cards_in_hands ps'))
    ∧ Forall2 (λ p p', ∃ cs,
                 hand p' = hand p ++ cs ∧ (length cs ≤ n)%nat
                 ∧ name p' = name p ∧ chips p' = chips p
                 ∧ player.current_bet p' = player.current_bet p
                 ∧ has_folded p' = has_folded p
                 ∧ is_all_in p' = is_all_in p) ps ps'.
Proof.
  destruct (deal_cards_spec n d ps) as (d' & ps' & Hdeal & Hall & Hperm & _).
  exists d', ps'. split_and!; [done | done | by rewrite Hperm |].
  eapply Forall2_impl; [exact Hall|]. simpl.
  intros p p' (cs & -> & Hcs). exists cs.
  destruct (with_cards_fields p cs) as (? & ? & ? & ? & ?).
  split_and!; auto. apply with_cards_hand.
Qed.

Lemma deal_cards_moves_cards_witness :
  ∃ d' ps',
    deal_cards 2 (deck.reset []) (players three_players) = py.Ok (d', ps')
    ∧ NoDup (d' ++ cards_in_hands ps').
Proof.
  destruct (deal_cards_moves_cards 2 (deck.reset []) (players three_players))
    as (d' & ps' & Hdeal & _ & Hnodup & _).
  exists d', ps'. split; [done|]. apply Hnodup.
  apply (bool_decide_unpack _). by vm_compute.
Defined.

(** X10: when the deck holds [cards_per_player] cards for every player,
    each player receives exactly that many and the deck shrinks by
    [cards_per_player] times the number of players. *)
Theorem deal_cards_enough (n : nat) (d : deck.Deck) (ps : list Player) :
  (n * length ps ≤ length d)%nat →
  ∃ d' ps',
    deal_cards n d ps = py.Ok (d', ps')
    ∧ deck.cards_remaining d' = (deck.cards_remaining d - n * length ps)%nat
    ∧ Forall2 (λ p p', length (hand p') = (length (hand p) + n)%nat) ps ps'.
Proof.
  intros Hlen.
  destruct (deal_cards_spec n d ps) as (d' & ps' & Hdeal & _ & _ & Henough & _).
  destruct (Henough Hlen) as [Hall Hd'].
  exists d', ps'. split_and!; [done | done |].
  eapply Forall2_impl; [exact Hall|]. simpl.
  intros p p' (cs & -> & <-). by rewrite with_cards_hand, length_app.
Qed.

Lemma deal_cards_enough_witness :
  ∃ d' ps',
    deal_cards 2 (deck.reset []) (players three_players) = py.Ok (d', ps')
    ∧ deck.cards_remaining d' = (52 - 2 * 3)%nat
    ∧ Forall2 (λ p p', length (hand p') = (length (hand p) + 2)%nat)
        (players three_players) ps'.
Proof.
  refine (deal_cards_enough 2 (deck.reset []) (players three_players) _).
  vm_compute. lia.
Defined.

(** X11: the deck running out is silent. With at least one card per
    player in the deck every player ends up holding a card; with fewer
    cards than players the deck ends empty and every player seated at or
    beyond the number of cards keeps the hand it had, whatever
    [cards_per_player] asks for. *)
Theorem deal_cards_short_deck (n : nat) (d : deck.Deck) (ps : list Player) :
  (1 ≤ n)%nat →
  ∃ d' ps',
    deal_cards n d ps = py.Ok (d', ps')
    ∧ ((length ps ≤ length d)%nat → Forall (λ p', hand p' ≠ []) ps')
    ∧ ((length d ≤ length ps)%nat →
       d' = [] ∧ ∀ j, (length d ≤ j)%nat → ps' !! j = ps !! j).
Proof.
  intros Hn.
  destruct (deal_cards_spec n d ps)
    as (d' & ps' & Hdeal & _ & _ & _ & Hcard & Hshort).
  exists d', ps'. split_and!; auto.
Qed.

Lemma deal_cards_short_deck_witness :
  ∃ d' ps',
    deal_cards 2 (take 2 (deck.reset [])) (players three_players)
    = py.Ok (d', ps')
    ∧ d' = [] ∧ ps' !! 2%nat = players three_players !! 2%nat.
Proof.
  destruct (deal_cards_short_deck 2 (take 2 (deck.reset []))
              (players three_players)) as (d' & ps' & Hdeal & _ & Hshort);
    [lia|].
  exists d', ps'. split; [done|].
  destruct Hshort as [-> Hsame]; [vm_compute; lia|].
  split; [done|]. apply Hsame. vm_compute. lia.
Defined.

(** ** PokerGame.setup_hand *)

Lemma filter_chips_reset ps :
  filter (λ p, 0 < chips p) (map reset_for_new_hand ps)
  = map reset_for_new_hand (filter (λ p, 0 < chips p) ps).
Proof.
  induction ps as [|p ps IH]; [done|]. simpl.
  rewrite !filter_cons. simpl. rewrite IH. by destruct (decide (0 < chips p)).
Qed.

Lemma seats_where_all f k ps :
  Forall (λ p, f p = true) ps → length (seats_where f k ps) = length ps.
Proof.
  intros H. revert k. induction H as [|p ps Hp _ IH]; intros k; simpl; [done|].
  rewrite Hp. simpl. by rewrite IH.
Qed.

Lemma sumZ_filter_chips ps :
  Forall (λ p, 0 ≤ chips p) ps →
  sumZ chips (filter (λ p, 0 < chips p) ps) = sumZ chips ps.
Proof.
  induction 1 as [|p ps Hp _ IH]; [done|].
  rewrite filter_cons. destruct (decide (0 < chips p)); simpl; lia.
Qed.

Lemma sumZ_map_reset ps : sumZ chips (map reset_for_new_hand ps) = sumZ chips ps.
Proof. induction ps as [|p ps IH]; simpl; [done|]. by rewrite IH. Qed.

Lemma setup_hand_players g :
  players (setup_hand g).1
  = map reset_for_new_hand (filter (λ p, 0 < chips p) (players g)).
Proof. simpl. apply filter_chips_reset. Qed.

Lemma setup_hand_total_bets g : total_bets (setup_hand g).1 = 0.
Proof.
  unfold total_bets. rewrite setup_hand_players.
  induction (filter _ _) as [|p ps IH]; simpl; [done|]. lia.
Qed.

Lemma setup_hand_proceeds g :
  (setup_hand g).2 = true ↔ (2 ≤ count_with_chips (players g))%nat.
Proof.
  simpl. rewrite filter_chips_reset, length_map. unfold count_with_chips.
  destruct (Nat.ltb_spec (length (filter (λ p, 0 < chips p) (players g))) 2);
    simpl; split; (done || lia).
Qed.

Lemma setup_hand_total_chips g :
  Forall (λ p, 0 ≤ chips p) (players g) →
  total_chips (setup_hand g).1 = total_chips g.
Proof.
  intros Hnn. unfold total_chips. rewrite setup_hand_players.
  by rewrite sumZ_map_reset, sumZ_filter_chips.
Qed.

Lemma count_with_chips_all ps :
  Forall (λ p, 0 < chips p) ps → count_with_chips ps = length ps.
Proof.
  unfold count_with_chips. induction 1 as [|p ps Hp _ IH]; [done|].
  rewrite filter_cons_True by done. simpl. by rewrite IH.
Qed.

(** X12: [setup_hand] keeps, in their order, exactly the players that
    have chips, each with an empty hand, no bet and no flag; the pot and
    the bet to match are 0; it returns [True] exactly when at least two
    players have chips; and, no stack being negative, the chips on the
    table are the same as before. *)
Theorem setup_hand_roster (g : PokerGame) :
  let g' := (setup_hand g).1 in
  players g' = map reset_for_new_hand (filter (λ p, 0 < chips p) (players g))
  ∧ pot g' = 0 ∧ current_bet g' = 0 ∧ total_bets g' = 0
  ∧ count_in_round (players g') = length (players g')
  ∧ ((setup_hand g).2 = true ↔ (2 ≤ count_with_chips (players g))%nat)
  ∧ (Forall (λ p, 0 ≤ chips p) (players g) → total_chips g' = total_chips g).
Proof.
  intros g'. unfold g'. split_and!.
  - apply setup_hand_players.
  - done.
  - done.
  - apply setup_hand_total_bets.
  - rewrite setup_hand_players.
    apply seats_where_all, Forall_fmap, Forall_true. done.
  - apply setup_hand_proceeds.
  - apply setup_hand_total_chips.
Qed.

Lemma setup_hand_roster_witness :
  total_chips (setup_hand small_stacks).1 = total_chips small_stacks.
Proof.
  refine (proj2 (proj2 (proj2 (proj2 (proj2 (proj2
            (setup_hand_roster small_stacks)))))) _).
  repeat constructor; by vm_compute.
Defined.

(** ** What a betting round leaves alone *)

Lemma player_kept_refl p : player_kept p p.
Proof. by split. Qed.

Lemma player_kept_trans p1 p2 p3 :
  player_kept p1 p2 → player_kept p2 p3 → player_kept p1 p3.
Proof.
  intros [H1 H2 H3 H4 H5] [K1 K2 K3 K4 K5]. split; try congruence; auto.
  intros Hout. specialize (H5 Hout). subst p2. auto.
Qed.

Lemma roster_kept_refl g : roster_kept g g.
Proof. split; auto. intros j p Hj. exists p. split; [done | apply player_kept_refl]. Qed.

Lemma roster_kept_trans g1 g2 g3 :
  roster_kept g1 g2 → roster_kept g2 g3 → roster_kept g1 g3.
Proof.
  intros [H1 H2 H3 H4] [K1 K2 K3 K4]. split; try congruence.
  intros j p Hj. destruct (H1 j p Hj) as (p' & Hj' & Hk).
  destruct (K1 j p' Hj') as (p'' & Hj'' & Hk').
  exists p''. split; [done | by eapply player_kept_trans].
Qed.

Lemma roster_kept_insert g g' i p p' :
  players g !! i = Some p →
  players g' = <[i := p']> (players g) →
  minimum_bet g' = minimum_bet g → dealer_position g' = dealer_position g →
  player_kept p p' →
  roster_kept g g'.
Proof.
  intros Hi Hps Hm Hd Hk. split; auto.
  - intros j q Hj. rewrite Hps. destruct (decide (j = i)) as [->|Hne].
    + exists p'. rewrite list_lookup_insert_eq by by eapply lookup_lt_Some.
      split; [done | congruence].
    + exists q. rewrite list_lookup_insert_ne by done.
      split; [done | apply player_kept_refl].
  - rewrite Hps. apply length_insert.
Qed.

Lemma place_bet_kept p amount :
  in_round p = true → player_kept p (place_bet p amount).1.
Proof.
  intros Hin. unfold place_bet.
  destruct (chips p <=? amount); simpl; split; simpl; auto; congruence.
Qed.

Lemma process_decision_kept d i p r :
  players (game r) !! i = Some p → in_round p = true →
  roster_kept (game r) (game (process_decision d i p r)).
Proof.
  intros Hi Hin. unfold process_decision.
  destruct d as [[| |] amount].
  - eapply roster_kept_insert; eauto. split; simpl; auto; congruence.
  - destruct (0 <? amount); [|apply roster_kept_refl].
    pose proof (place_bet_kept p amount Hin) as Hk.
    destruct (place_bet p amount) as [p' actual].
    eapply roster_kept_insert; eauto.
  - pose proof (place_bet_kept p amount Hin) as Hk.
    destruct (place_bet p amount) as [p' actual].
    eapply roster_kept_insert; eauto.
Qed.

Lemma loop_body_kept pol i r :
  roster_kept (game r) (game (loop_body pol i r).1).
Proof.
  unfold loop_body.
  destruct (players (game r) !! i) as [p|] eqn:Hi; [|apply roster_kept_refl].
  destruct (has_folded p || is_all_in p) eqn:Hout; [apply roster_kept_refl|].
  destruct (needs_to_act r i p); simpl; [|apply roster_kept_refl].
  destruct (bool_decide _ && _); simpl; [apply roster_kept_refl|].
  unfold take_action.
  destruct (pol _ _ _ _ _) as [d|e]; simpl; [|apply roster_kept_refl].
  apply process_decision_kept; [done|].
  unfold in_round. by destruct (has_folded p), (is_all_in p).
Qed.

Lemma sweep_kept pol seats r :
  roster_kept (game r) (game (sweep pol seats r).1).
Proof.
  revert r. induction seats as [|i seats IH]; intros r; simpl.
  - apply roster_kept_refl.
  - pose proof (loop_body_kept pol i r) as H.
    destruct (loop_body pol i r) as [r' [| |e]]; simpl in *; [done| |done].
    eapply roster_kept_trans; [exact H | apply IH].
Qed.

Lemma while_loop_kept pol fuel r :
  roster_kept (game r) (game (state_of (while_loop pol fuel r))).
Proof.
  revert r. induction fuel as [|fuel IH]; intros r; simpl.
  - apply roster_kept_refl.
  - pose proof (sweep_kept pol (seq 0 (length (players (game r)))) (begin_sweep r)) as H.
    destruct (sweep pol _ (begin_sweep r)) as [r' [| |e]]; simpl in *; [done| |done].
    destruct (betting_complete r'); simpl; [done|].
    eapply roster_kept_trans; [exact H | apply IH].
Qed.

Lemma betting_round_kept pol fuel g :
  roster_kept g (game (state_of (betting_round pol fuel g))).
Proof.
  unfold betting_round.
  destruct (count_in_round (players g) <=? 1)%nat; simpl.
  - apply roster_kept_refl.
  - apply (while_loop_kept pol fuel (enter_round g)).
Qed.

(** X13: whatever the policy decides and however long the round runs,
    [betting_round] keeps every seat, name and hand, the minimum bet and
    the dealer position; it never clears a fold or all-in flag; and a
    player that was folded or all-in when the round began leaves it
    exactly as it was. *)
Theorem betting_round_frame (pol : Policy) (fuel : nat) (g : PokerGame)
    (j : nat) (p : Player) :
  players g !! j = Some p →
  let g' := game (state_of (betting_round pol fuel g)) in
  length (players g') = length (players g)
  ∧ minimum_bet g' = minimum_bet g
  ∧ dealer_position g' = dealer_position g
  ∧ ∃ p', players g' !! j = Some p'
          ∧ name p' = name p ∧ hand p' = hand p
          ∧ (has_folded p = true → has_folded p' = true)
          ∧ (is_all_in p = true → is_all_in p' = true)
          ∧ (in_round p = false → p' = p).
Proof.
  intros Hj g'. destruct (betting_round_kept pol fuel g) as [Hps Hlen Hm Hd].
  fold g' in Hps, Hlen, Hm, Hd. split_and!; auto.
  destruct (Hps j p Hj) as (p' & Hj' & [H1 H2 H3 H4 H5]).
  exists p'. split_and!; auto.
Qed.

Lemma betting_round_frame_witness :
  let g' := game (state_of (betting_round raise_then_shove 3 big_and_short_stack)) in
  ∃ p', players g' !! 1%nat = Some p'
        ∧ name p' = "Bob" ∧ hand p' = [].
Proof.
  intros g'.
  destruct (betting_round_frame raise_then_shove 3 big_and_short_stack 1
              (init "Bob" 100)) as (_ & _ & _ & p' & H1 & H2 & H3 & _).
  - by vm_compute.
  - exists p'. by split_and!.
Defined.

(** ** Chips only move from the stacks to the pot *)

Lemma player_paid_refl p : 0 ≤ chips p → player_paid p p.
Proof. intros. split; lia. Qed.

Lemma player_paid_trans p1 p2 p3 :
  player_paid p1 p2 → player_paid p2 p3 → player_paid p1 p3.
Proof. intros [] []. split; lia. Qed.

Lemma place_bet_paid p amount :
  0 ≤ chips p → 0 ≤ amount →
  player_paid p (place_bet p amount).1 ∧ 0 ≤ (place_bet p amount).2.
Proof.
  intros Hc Ha. unfold place_bet.
  destruct (Z.leb_spec (chips p) amount); simpl; (split; [split; simpl|]); lia.
Qed.

Lemma table_paid_refl g :
  (∀ j p, players g !! j = Some p → 0 ≤ chips p) → table_paid g g.
Proof.
  intros Hc. split; [|lia|lia]. intros j p Hj. exists p.
  split; [done|]. apply player_paid_refl. eauto.
Qed.

Lemma table_paid_trans g1 g2 g3 :
  table_paid g1 g2 → table_paid g2 g3 → table_paid g1 g3.
Proof.
  intros [H1 H2 H3] [K1 K2 K3]. split; [|lia|lia].
  intros j p Hj. destruct (H1 j p Hj) as (p' & Hj' & Hp).
  destruct (K1 j p' Hj') as (p'' & Hj'' & Hp').
  exists p''. split; [done | by eapply player_paid_trans].
Qed.

Section paid.
Variable pol : Policy.
Hypothesis pol_conforms : policy_conforms pol.

Lemma process_decision_paid d i p r :
  policy_amount (current_bet (game r)) (minimum_bet (game r)) p d →
  round_ok r → players (game r) !! i = Some p → in_round p = true →
  pot (game r) ≤ pot (game (process_decision d i p r))
  ∧ ∃ p', players (game (process_decision d i p r))
          = <[i := p']> (players (game r))
          ∧ player_paid p p'.
Proof.
  intros Hd [Hc Hb Hr Hm] Hi Hin.
  pose proof (Hc i p Hi) as Hcp.
  pose proof (call_amount_nonneg p (current_bet (game r))) as Hca.
  unfold process_decision.
  destruct d as [[| |] amount]; simpl in Hd.
  - simpl. split; [lia|]. exists (fold p). split; [done|]. split; simpl; lia.
  - destruct (Z.ltb_spec 0 amount).
    + destruct (place_bet_paid p amount Hcp ltac:(lia)) as [Hp Hbet].
      destruct (place_bet p amount) as [p' actual]. simpl in *.
      split; [lia|]. by exists p'.
    + simpl. split; [lia|]. exists p.
      split; [by rewrite list_insert_id | by apply player_paid_refl].
  - destruct Hd as (raise_amount & -> & Hlo & Hhi).
    destruct (place_bet_paid p (call_amount p (current_bet (game r)) + raise_amount)
                Hcp ltac:(lia)) as [Hp Hbet].
    destruct (place_bet p _) as [p' actual]. simpl in *.
    split; [lia|]. by exists p'.
Qed.

Lemma loop_body_paid i r :
  round_ok r → table_paid (game r) (game (loop_body pol i r).1).
Proof.
  intros Hok.
  assert (Hinv : sweep_inv (current_bet (game r)) (total_chips (game r)) [] r).
  { split; [done | lia | lia |]. intros _ j p Hj. by apply elem_of_nil in Hj. }
  pose proof (loop_body_inv pol pol_conforms _ _ _ i _ Hinv) as HT.
  pose proof Hok as [Hc _ _ _].
  revert HT. unfold loop_body.
  destruct (players (game r) !! i) as [p|] eqn:Hi; [|intros; by apply table_paid_refl].
  destruct (has_folded p || is_all_in p) eqn:Hout; [intros; by apply table_paid_refl|].
  destruct (needs_to_act r i p); simpl.
  2: { destruct (_ <=? _)%nat; intros; by apply table_paid_refl. }
  destruct (bool_decide _ && _); simpl; [intros; by apply table_paid_refl|].
  unfold take_action.
  destruct (pol _ _ _ _ _) as [d|e] eqn:Hd; simpl;
    [|intros; by apply table_paid_refl].
  intros HT.
  assert (HT' : current_bet (game r)
                ≤ current_bet (game (process_decision d i p r))).
  { destruct (_ <=? _)%nat; by destruct HT. }
  clear HT.
  destruct (process_decision_paid d i p r) as (Hpot & p' & Hps & Hp);
    [by eapply pol_conforms | done | done | |].
  { unfold in_round. by destruct (has_folded p), (is_all_in p). }
  split; [|done|done].
  intros j q Hj. rewrite Hps. destruct (decide (j = i)) as [->|Hne].
  - exists p'. rewrite list_lookup_insert_eq by by eapply lookup_lt_Some.
    split; [done | congruence].
  - exists q. rewrite list_lookup_insert_ne by done.
    split; [done | apply player_paid_refl; eauto].
Qed.

Lemma sweep_paid seats r :
  round_ok r → table_paid (game r) (game (sweep pol seats r).1).
Proof.
  revert r. induction seats as [|i seats IH]; intros r Hok; simpl.
  - apply table_paid_refl. by destruct Hok.
  - pose proof (loop_body_paid i r Hok) as H.
    pose proof (round_ok_loop_body pol pol_conforms i r Hok) as Hok'.
    destruct (loop_body pol i r) as [r' [| |e]]; simpl in *; [done| |done].
    eapply table_paid_trans; [exact H | by apply IH].
Qed.

Lemma while_loop_paid fuel r :
  round_ok r → table_paid (game r) (game (state_of (while_loop pol fuel r))).
Proof.
  revert r. induction fuel as [|fuel IH]; intros r Hok; simpl.
  - apply table_paid_refl. by destruct Hok.
  - pose proof (round_ok_begin_sweep r Hok) as Hok0.
    pose proof (sweep_paid (seq 0 (length (players (game r)))) _ Hok0) as H.
    pose proof (round_ok_sweep pol pol_conforms
                  (seq 0 (length (players (game r)))) _ Hok0) as Hok'.
    destruct (sweep pol _ (begin_sweep r)) as [r' [| |e]]; simpl in *; [done| |done].
    destruct (betting_complete r'); simpl; [done|].
    eapply table_paid_trans; [exact H | by apply IH].
Qed.

(** A sweep without a decision leaves the table as it was. *)
Lemma loop_body_quiet i r :
  game (loop_body pol i r).1 = game r
  ∨ round_had_action (loop_body pol i r).1 = true.
Proof.
  unfold loop_body.
  destruct (players (game r) !! i) as [p|]; [|by left].
  destruct (has_folded p || is_all_in p); [by left|].
  destruct (needs_to_act r i p); simpl; [|by left].
  destruct (bool_decide _ && _); simpl; [by left|].
  unfold take_action. destruct (pol _ _ _ _ _) as [d|e]; simpl; [|by left].
  right. unfold process_decision. destruct d as [[| |] amount].
  - done.
  - destruct (0 <? amount); [|done]. by destruct (place_bet p amount).
  - by destruct (place_bet p amount).
Qed.

Lemma sweep_quiet seats r :
  game (sweep pol seats r).1 = game r
  ∨ round_had_action (sweep pol seats r).1 = true.
Proof.
  revert r. induction seats as [|i seats IH]; intros r; simpl; [by left|].
  pose proof (loop_body_quiet i r) as H.
  pose proof (loop_body_action pol i r) as [_ Hact].
  destruct (loop_body pol i r) as [r1 [| |e]]; simpl in *; [done| |done].
  destruct (IH r1) as [Hg|Ha]; [|by right].
  destruct H as [H|H]; [left; congruence|].
  right. pose proof (sweep_action pol seats r1) as [_ Hact'].
  simpl in Hact'. rewrite Hact', H. done.
Qed.

Lemma while_loop_matched fuel r0 r :
  round_ok r0 →
  while_loop pol fuel r0 = Finished Complete r →
  (2 ≤ count_in_round (players (game r)))%nat →
  ∀ p, p ∈ players (game r) → in_round p = true →
       player.current_bet p = current_bet (game r).
Proof.
  revert r0. induction fuel as [|fuel IH]; intros r0 Hok; simpl; [done|].
  destruct (sweep pol _ (begin_sweep r0)) as [r1 [| |e]] eqn:Hsweep;
    [done| |done].
  pose proof (round_ok_sweep pol pol_conforms
                (seq 0 (length (players (game r0)))) _
                (round_ok_begin_sweep r0 Hok)) as Hok1.
  rewrite Hsweep in Hok1. simpl in Hok1.
  destruct (betting_complete r1) eqn:Hcomplete; [|by apply IH].
  intros [= <-] Htwo p Hp Hin.
  unfold betting_complete in Hcomplete.
  destruct (Nat.leb_spec (count_in_round (players (game r1))) 1); [lia|].
  destruct (round_had_action r1) eqn:Hact; simpl in Hcomplete.
  - rewrite forallb_forall in Hcomplete.
    apply list_elem_of_In, Hcomplete, settled_true in Hp.
    unfold in_round in Hin.
    destruct Hp as [Hf|[Ha|Hb]]; [| |done];
      destruct (has_folded p), (is_all_in p); done.
  - assert (Hinv0 : sweep_inv (current_bet (game r0)) (total_chips (game r0)) []
                      (begin_sweep r0)).
    { split; simpl; [by apply round_ok_begin_sweep | lia | lia |].
      intros _ j q Hj. by apply elem_of_nil in Hj. }
    pose proof (sweep_inv_all pol pol_conforms _ _ _ _ _ _ Hinv0 Hsweep)
      as [_ _ _ HK].
    pose proof (sweep_quiet (seq 0 (length (players (game r0)))) (begin_sweep r0))
      as Hq.
    rewrite Hsweep in Hq. simpl in Hq. destruct Hq as [Hg|Ha]; [|congruence].
    apply list_elem_of_lookup in Hp as [j Hj].
    apply (HK ltac:(by rewrite Hg) j p); [|done|done].
    rewrite app_nil_r, elem_of_reverse, elem_of_seq.
    apply lookup_lt_Some in Hj. rewrite Hg in Hj. lia.
Qed.

End paid.

(** X14: with the amounts of the policies, from the state a hand starts
    in, chips only move from the stacks to the bets and the pot: at any
    point of the round no player has more chips or a smaller bet than
    before, no stack is negative, each player's chips plus bet is what it
    was, and neither the pot nor the table bet has gone down. *)
Theorem betting_round_pays (pol : Policy) (fuel : nat) (g : PokerGame)
    (j : nat) (p : Player) :
  policy_conforms pol →
  Forall (λ p, 0 ≤ chips p) (players g) →
  Forall (λ p, in_round p = true → player.current_bet p ≤ current_bet g)
    (players g) →
  0 ≤ minimum_bet g →
  players g !! j = Some p →
  let g' := game (state_of (betting_round pol fuel g)) in
  pot g ≤ pot g' ∧ current_bet g ≤ current_bet g'
  ∧ ∃ p', players g' !! j = Some p'
          ∧ 0 ≤ chips p' ≤ chips p
          ∧ player.current_bet p ≤ player.current_bet p'
          ∧ chips p' + player.current_bet p' = chips p + player.current_bet p.
Proof.
  intros Hpol Hchips Hbets Hmin Hj g'.
  assert (Hok : round_ok (enter_round g)).
  { split; simpl; [| |done|done].
    - intros i q Hi. exact (Forall_lookup_1 _ _ _ _ Hchips Hi).
    - intros i q Hi. exact (Forall_lookup_1 _ _ _ _ Hbets Hi). }
  assert (Hpaid : table_paid g g').
  { unfold g', betting_round.
    destruct (count_in_round (players g) <=? 1)%nat; simpl.
    - apply table_paid_refl. by destruct Hok.
    - apply (while_loop_paid pol Hpol fuel (enter_round g) Hok). }
  destruct Hpaid as [Hps Hpot HT]. split_and!; [done | done |].
  destruct (Hps j p Hj) as (p' & Hj' & [H1 H2 H3]).
  exists p'. split_and!; auto; lia.
Qed.

Lemma betting_round_pays_witness :
  let g' := game (state_of (betting_round minimum_raiser 126 small_stacks)) in
  pot small_stacks ≤ pot g' ∧ current_bet small_stacks ≤ current_bet g'.
Proof.
  intros g'.
  destruct (betting_round_pays minimum_raiser 126 small_stacks 0 (init "Alice" 60)
              minimum_raiser_conforms) as (H1 & H2 & _).
  - repeat constructor; by vm_compute.
  - repeat constructor; by vm_compute.
  - by vm_compute.
  - by vm_compute.
  - by split.
Defined.

(** X15: with the amounts of the policies, from the state a hand starts
    in, a round that is declared complete while two or more players can
    still bet has every one of them matched: each player that is neither
    folded nor all-in has exactly the table bet in front. *)
Theorem complete_round_matched (pol : Policy) (fuel : nat) (g : PokerGame)
    (r : RoundState) (p : Player) :
  policy_conforms pol →
  Forall (λ p, 0 ≤ chips p) (players g) →
  Forall (λ p, in_round p = true → player.current_bet p ≤ current_bet g)
    (players g) →
  0 ≤ minimum_bet g →
  betting_round pol fuel g = Finished Complete r →
  (2 ≤ count_in_round (players (game r)))%nat →
  p ∈ players (game r) → in_round p = true →
  player.current_bet p = current_bet (game r).
Proof.
  intros Hpol Hchips Hbets Hmin Hrun Htwo Hp Hin.
  unfold betting_round in Hrun.
  destruct (count_in_round (players g) <=? 1)%nat; [done|].
  eapply (while_loop_matched pol Hpol fuel (enter_round g)); eauto.
  split; simpl; [| |done|done].
  - intros i q Hi. exact (Forall_lookup_1 _ _ _ _ Hchips Hi).
  - intros i q Hi. exact (Forall_lookup_1 _ _ _ _ Hbets Hi).
Qed.

Lemma opening_raiser_conforms : policy_conforms opening_raiser.
Proof.
  intros n i p table_bet minimum_bet d. unfold opening_raiser. cbv zeta.
  intros [= <-].
  destruct (table_bet =? 0); simpl; [|done].
  destruct (Z.ltb_spec (call_amount p table_bet + minimum_bet) (chips p)); simpl.
  - exists minimum_bet. split; [done | lia].
  - done.
Qed.


Lemma complete_round_matched_witness :
  let r := state_of (betting_round opening_raiser 1 three_players) in
  Forall (λ p, in_round p = true → player.current_bet p = current_bet (game r))
    (players (game r)).
Proof.
  intros r. apply Forall_forall. intros p Hp Hin.
  refine (complete_round_matched opening_raiser 1 three_players r p
            opening_raiser_conforms _ _ _ _ _ Hp Hin).
  - repeat constructor; by vm_compute.
  - repeat constructor; by vm_compute.
  - by vm_compute.
  - by vm_compute.
  - vm_compute. lia.
Defined.

(** ** PokerGame.play_hand *)

Lemma sumZ_stake ps : sumZ stake ps = sumZ chips ps + sumZ player.current_bet ps.
Proof. induction ps as [|q ps IH]; simpl; [done|]. unfold stake at 1. lia. Qed.

Lemma sumZ_alter (f : Player → Z) h ps i p :
  ps !! i = Some p → sumZ f (alter h i ps) = sumZ f ps - f p + f (h p).
Proof.
  intros Hi.
  assert (alter h i ps = <[i := h p]> ps) as ->.
  { apply list_eq. intros j. destruct (decide (i = j)) as [<-|Hne].
    - rewrite list_lookup_alter_eq, Hi, list_lookup_insert_eq
        by (by eapply lookup_lt_Some). done.
    - by rewrite list_lookup_alter_ne, list_lookup_insert_ne. }
  by apply sumZ_insert.
Qed.

Lemma award_total_chips g w p :
  players g !! w = Some p → total_chips (award g w) = total_chips g + pot g.
Proof.
  intros Hw. unfold total_chips, award. simpl.
  rewrite (sumZ_alter _ _ _ _ _ Hw). simpl. lia.
Qed.

Lemma showdown_result active best best_value i :
  showdown active best best_value = py.Ok (Some i) →
  best = Some i ∨ ∃ p, (i, p) ∈ active.
Proof.
  revert best best_value.
  induction active as [|[k q] rest IH]; intros best bv; simpl.
  - intros [= ->]. by left.
  - destruct (py.max_of _) as [v|]; simpl; [|done].
    destruct (bv <? v); intros H; apply IH in H as [H|[p' Hp]].
    + inversion H; subst. right. exists q. apply list_elem_of_here.
    + right. exists p'. by apply list_elem_of_further.
    + by left.
    + right. exists p'. by apply list_elem_of_further.
Qed.

Lemma determine_winner_awards g g' :
  determine_winner g = py.Ok g' →
  ∃ w p, players g !! w = Some p ∧ g' = award g w.
Proof.
  unfold determine_winner.
  destruct (active_players g) as [|[i p] [|x rest]] eqn:Hact.
  - done.
  - intros [= <-]. exists i, p. split; [|done].
    assert (Hin : (i, p) ∈ active_players g) by (rewrite Hact; apply list_elem_of_here).
    apply seats_where_lookup in Hin as (_ & Hi & _). by rewrite Nat.sub_0_r in Hi.
  - rewrite <- Hact.
    destruct (showdown (active_players g) None (-1)) as [[w|]|] eqn:Hs; simpl; try done.
    intros [= <-]. apply showdown_result in Hs as [|[pw Hp]]; [done|].
    apply seats_where_lookup in Hp as (_ & Hw & _). rewrite Nat.sub_0_r in Hw.
    by exists w, pw.
Qed.

Lemma while_loop_someone_left pol fuel r how r' :
  (2 ≤ count_not_folded (players (game r)))%nat →
  while_loop pol fuel r = Finished how r' →
  (1 ≤ count_not_folded (players (game r')))%nat.
Proof.
  revert r. induction fuel as [|fuel IH]; intros r Htwo; simpl; [done|].
  pose proof (sweep_count pol (seq 0 (length (players (game r)))) (begin_sweep r) Htwo) as H.
  destruct (sweep pol _ (begin_sweep r)) as [r1 [| |e]].
  - intros [= <- <-]. lia.
  - destruct (betting_complete r1).
    + intros [= <- <-]. lia.
    + by apply IH.
  - done.
Qed.

(** The roster after the deal: the players [setup_hand] kept, with cards. *)
Lemma dealt_roster n d ps d' ps' f :
  deal_cards n d ps = py.Ok (d', ps') →
  (∀ p cs, f (with_cards p cs) = f p) →
  sumZ f ps' = sumZ f ps.
Proof.
  intros Hdeal Hf.
  destruct (deal_cards_spec n d ps) as (d2 & ps2 & Hdeal2 & Hall & _).
  rewrite Hdeal in Hdeal2. inversion Hdeal2; subst d2 ps2. clear Hdeal Hdeal2.
  induction Hall as [|p p' ps ps' (cs & -> & _) _ IH]; simpl; [done|].
  by rewrite Hf, IH.
Qed.

Lemma dealt_flags n d ps d' ps' :
  deal_cards n d ps = py.Ok (d', ps') →
  Forall (λ p, in_round p = true) ps →
  Forall (λ p, in_round p = true ∧ has_folded p = false) ps'
  ∧ length ps' = length ps.
Proof.
  intros Hdeal Hin.
  destruct (deal_cards_spec n d ps) as (d2 & ps2 & Hdeal2 & Hall & _).
  rewrite Hdeal in Hdeal2. inversion Hdeal2; subst d2 ps2. clear Hdeal2.
  split; [|symmetry; by eapply Forall2_length].
  apply Forall_lookup. intros i p' Hp'.
  destruct (Forall2_lookup_r _ _ _ _ _ Hall Hp') as (p & Hp & cs & -> & _).
  pose proof (Forall_lookup_1 _ _ _ _ Hin Hp) as Hpin. simpl in Hpin.
  destruct (with_cards_fields p cs) as (_ & _ & _ & Hf & Ha).
  unfold in_round in *. rewrite Hf, Ha. split; [done|].
  by destruct (has_folded p).
Qed.

Lemma setup_players_fresh g p :
  p ∈ players (setup_hand g).1 →
  0 < chips p ∧ player.current_bet p = 0 ∧ hand p = []
  ∧ in_round p = true.
Proof.
  simpl. intros Hp. apply list_elem_of_filter in Hp as [Hc Hp].
  apply list_elem_of_fmap in Hp as (q & -> & _). simpl in *. done.
Qed.

(** X16: a hand neither creates nor destroys chips. When [play_hand]
    returns, with any policy and any shuffle, the chips of all stacks add
    up to what they were before the hand (no stack being negative before);
    the returned boolean tells whether more than one player still has
    chips; and after a hand that was played the dealer button is on a seat
    of the roster. *)
Theorem play_hand_conserves (pol : Policy) (fuel : nat)
    (rng : list card.Card → list card.Card) (g g' : PokerGame)
    (d d' : deck.Deck) (continue : bool) :
  Forall (λ p, 0 ≤ chips p) (players g) →
  play_hand pol fuel rng g d = Some (py.Ok (g', d', continue)) →
  total_chips g' = total_chips g
  ∧ continue = (1 <? count_with_chips (players g'))%nat
  ∧ ((setup_hand g).2 = true →
     (dealer_position g' < length (players g'))%nat).
Proof.
  intros Hnn. unfold play_hand. cbv zeta.
  pose proof (setup_hand_players g) as Hps.
  pose proof (setup_hand_total_bets g) as Hbets.
  pose proof (setup_hand_proceeds g) as Hflag.
  pose proof (setup_hand_total_chips g Hnn) as Hchips.
  pose proof (setup_players_fresh g) as Hfresh.
  assert (Hpot : pot (setup_hand g).1 = 0) by done.
  assert (Hwith : count_with_chips (players (setup_hand g).1)
                  = count_with_chips (players g)).
  { rewrite count_with_chips_all.
    - rewrite Hps, length_map. done.
    - apply Forall_forall. intros p Hp. by apply Hfresh. }
  destruct (setup_hand g) as [g1 proceed] eqn:Hsetup.
  cbn [fst snd] in *.
  destruct proceed; cbn [negb].
  2: { intros [= <- <- <-]. split_and!; [done| |done].
       symmetry. apply Nat.ltb_ge. rewrite Hwith.
       destruct (Nat.le_gt_cases 2 (count_with_chips (players g))) as [Hge|]; [|lia].
       apply Hflag in Hge. done. }
  destruct (deal_cards 2 (deck.shuffle rng (deck.reset d)) (players g1))
    as [[d2 ps2]|] eqn:Hdeal; [|done].
  pose proof (dealt_roster _ _ _ _ _ chips Hdeal
                (λ p cs, proj1 (proj2 (with_cards_fields p cs)))) as Hc2.
  pose proof (dealt_roster _ _ _ _ _ player.current_bet Hdeal
                (λ p cs, proj1 (proj2 (proj2 (with_cards_fields p cs))))) as Hb2.
  destruct (dealt_flags _ _ _ _ _ Hdeal) as [Hin2 Hlen2].
  { apply Forall_forall. intros p Hp. by apply Hfresh. }
  assert (Hmany : (2 ≤ length ps2)%nat).
  { rewrite Hlen2, Hps, length_map. by apply Hflag. }
  unfold total_bets, total_chips in Hbets, Hchips.
  pose proof (ledger_betting_round pol fuel (set_players g1 ps2))
    as [Hstake Hledger _ Hlen].
  assert (Hleft : ∀ how r, betting_round pol fuel (set_players g1 ps2)
                           = Finished how r →
                  (1 ≤ count_not_folded (players (game r)))%nat).
  { intros how r Hrun. unfold betting_round in Hrun. cbn [players set_players] in Hrun.
    assert (Hall : count_not_folded ps2 = length ps2).
    { apply seats_where_all. eapply Forall_impl; [exact Hin2|].
      cbn beta. intros p [_ Hf]. unfold not_folded. by rewrite Hf. }
    destruct (count_in_round ps2 <=? 1)%nat.
    - inversion Hrun; subst. cbn [game enter_round players set_players]. lia.
    - eapply while_loop_someone_left; [|exact Hrun].
      cbn [game enter_round players set_players]. lia. }
  destruct (betting_round pol fuel (set_players g1 ps2)) as [how r| |e r];
    [|done|done].
  specialize (Hleft how r eq_refl).
  cbn [state_of] in Hstake, Hledger, Hlen.
  unfold play_hand_showdown.
  replace (0 <? count_not_folded (players (game r)))%nat with true
    by (symmetry; apply Nat.ltb_lt; lia).
  destruct (determine_winner (game r)) as [g3|] eqn:Hwin; [|done].
  apply determine_winner_awards in Hwin as (w & p & Hw & ->).
  assert (Hlen3 : length (players (award (game r) w)) = length ps2).
  { unfold award. cbn [players]. by rewrite length_alter. }
  rewrite Hlen3.
  replace (length ps2 =? 0)%nat with false by (symmetry; apply Nat.eqb_neq; lia).
  intros [= <- <- <-]. split_and!.
  - change (total_chips (award (game r) w) = total_chips g).
    rewrite (award_total_chips _ _ _ Hw).
    unfold total_stake, total_bets, total_chips in *.
    cbn [players pot set_players] in *.
    rewrite !sumZ_stake in Hstake. lia.
  - done.
  - intros _.
    change ((dealer_position (award (game r) w) + 1) mod length ps2
            < length (players (award (game r) w)))%nat.
    rewrite Hlen3. apply Nat.mod_upper_bound. lia.
Qed.

Lemma play_hand_conserves_witness :
  ∃ g' d' continue,
    play_hand opening_raiser 5 reverse small_stacks []
    = Some (py.Ok (g', d', continue))
    ∧ total_chips g' = total_chips small_stacks
    ∧ continue = (1 <? count_with_chips (players g'))%nat
    ∧ (dealer_position g' < length (players g'))%nat.
Proof.
  destruct (play_hand opening_raiser 5 reverse small_stacks [])
    as [[[[g' d'] c]|e]|] eqn:Hrun.
  - exists g', d', c. split; [done|].
    destruct (play_hand_conserves opening_raiser 5 reverse small_stacks g'
                [] d' c) as (H1 & H2 & H3).
    + repeat constructor; by vm_compute.
    + exact Hrun.
    + split_and!; [exact H1|exact H2|]. apply H3. by vm_compute.
  - vm_compute in Hrun. discriminate.
  - vm_compute in Hrun. discriminate.
Defined.






(** ** More players than cards *)








